(** * Student tracking: roster import and live scan recording

    A shallow embedding of the two programs of the repository,
    [student_input.py] (roster normalisation and import) and
    [live_scanner_static.py] (the scan loop with its two sinks), followed
    by the properties proved about them.

    Text is modelled as [string], a sequence of 8-bit characters read as
    ASCII code points: the case and whitespace tables below are Python's
    tables restricted to code points below 128, and a character above
    that range is treated as an uncased, non-blank symbol.  The clock,
    the line typed and the failures of the database and of the file system
    are inputs of a cycle of the scan loop; the rendering of the screen
    and the bell change no state and are left out. *)

From Stdlib Require Import String Ascii NArith ZArith List Bool Lia.
From Stdlib Require Import Sorting.Sorted Sorting.Permutation DecimalString DecimalN DecimalPos.
From stdpp Require Import gmap strings list fin_maps.

(** * Python text primitives *)

Module Py.

Definition code (c : ascii) : N := N_of_ascii c.

(** [str.isspace] on one character, which is also the class [\s] of the
    [re] module for [str] patterns: TAB, LF, VT, FF, CR, the four
    separators FS, GS, RS, US and the blank. *)
Definition is_space (c : ascii) : bool :=
  ((9 <=? code c) && (code c <=? 13) || (28 <=? code c) && (code c <=? 32))%N.

Definition is_upper (c : ascii) : bool := ((65 <=? code c) && (code c <=? 90))%N.
Definition is_lower (c : ascii) : bool := ((97 <=? code c) && (code c <=? 122))%N.
Definition is_digit (c : ascii) : bool := ((48 <=? code c) && (code c <=? 57))%N.

Definition upper (c : ascii) : ascii :=
  if is_lower c then ascii_of_N (code c - 32) else c.
Definition lower (c : ascii) : ascii :=
  if is_upper c then ascii_of_N (code c + 32) else c.

Fixpoint str_map (f : ascii -> ascii) (s : string) : string :=
  match s with
  | EmptyString => EmptyString
  | String c s' => String (f c) (str_map f s')
  end.

Fixpoint str_any (p : ascii -> bool) (s : string) : bool :=
  match s with
  | EmptyString => false
  | String c s' => p c || str_any p s'
  end.

Fixpoint str_filter (p : ascii -> bool) (s : string) : string :=
  match s with
  | EmptyString => EmptyString
  | String c s' => if p c then String c (str_filter p s') else str_filter p s'
  end.

(** Truth value of a string: [if s], [not s]. *)
Definition truthy (s : string) : bool :=
  match s with EmptyString => false | String _ _ => true end.

(** [s.isupper()]: at least one cased character and no lowercase one. *)
Definition isupper (s : string) : bool :=
  str_any is_upper s && negb (str_any is_lower s).

(** [s.capitalize()]: first character upper-cased, the rest lower-cased. *)
Definition capitalize (s : string) : string :=
  match s with
  | EmptyString => EmptyString
  | String c s' => String (upper c) (str_map lower s')
  end.

(** [s.lstrip()], [s.rstrip()] and [s.strip()] with no argument. *)
Fixpoint lstrip (s : string) : string :=
  match s with
  | EmptyString => EmptyString
  | String c s' => if is_space c then lstrip s' else s
  end.

Fixpoint rstrip (s : string) : string :=
  match s with
  | EmptyString => EmptyString
  | String c s' =>
      let r := rstrip s' in
      if is_space c && negb (truthy r) then EmptyString else String c r
  end.

Definition strip (s : string) : string := rstrip (lstrip s).

(** [sep.join(parts)]. *)
Fixpoint join (sep : string) (parts : list string) : string :=
  match parts with
  | [] => EmptyString
  | [p] => p
  | p :: ps => p +:+ sep +:+ join sep ps
  end.

(** [re.sub(r"\s+", " ", s)]: every maximal run of blanks becomes one
    blank.  [in_run] tells that the previous character was a blank. *)
Fixpoint sub_ws (in_run : bool) (s : string) : string :=
  match s with
  | EmptyString => EmptyString
  | String c s' =>
      if is_space c
      then (if in_run then sub_ws true s' else String " " (sub_ws true s'))
      else String c (sub_ws false s')
  end.

(** The pieces of a string cut at its runs of blanks: the text before
    the first run, then each run paired with the text that follows it. *)
Fixpoint ws_pieces (s : string) : string * list (string * string) :=
  match s with
  | EmptyString => (EmptyString, [])
  | String c s' =>
      let '(w, rest) := ws_pieces s' in
      if is_space c then
        match w, rest with
        | EmptyString, (sep, w1) :: rest' => (EmptyString, (String c sep, w1) :: rest')
        | _, _ => (EmptyString, (String c EmptyString, w) :: rest)
        end
      else (String c w, rest)
  end.

(** [re.split(r"(\s+)", s)]: the group keeps the separators in the
    result, so texts and runs of blanks alternate. *)
Definition re_split_ws (s : string) : list string :=
  let '(w, rest) := ws_pieces s in
  w :: concat (map (fun p => [fst p; snd p]) rest).

(** [s.split()] with no argument: the non-empty texts between blanks. *)
Definition split (s : string) : list string :=
  let '(w, rest) := ws_pieces s in
  List.filter truthy (w :: map snd rest).

(** [s.split(",", 1)]: cut at the first comma, if there is one. *)
Fixpoint split_comma1 (s : string) : list string :=
  match s with
  | EmptyString => [EmptyString]
  | String c s' =>
      if Ascii.eqb c ","
      then [EmptyString; s']
      else match split_comma1 s' with
           | p :: ps => String c p :: ps
           | [] => [String c EmptyString]
           end
  end.

(** ["," in s]. *)
Definition has_comma (s : string) : bool := str_any (fun c => Ascii.eqb c ",") s.

(** [str(n)] for a non-negative integer. *)
Definition str_of_N (n : N) : string :=
  DecimalString.NilZero.string_of_uint (N.to_uint n).

(** [int(digits)] on a string of decimal digits, which is all the scanner
    passes to it; the interpreter's bound on the length of the string is
    not modelled. *)
Fixpoint int_acc (acc : N) (s : string) : option N :=
  match s with
  | EmptyString => Some acc
  | String c s' =>
      if is_digit c then int_acc (10 * acc + (code c - 48)) s' else None
  end.

Definition int (s : string) : option N :=
  match s with EmptyString => None | _ => int_acc 0 s end.

End Py.

(** * The shared stores: the SQLite file and the file system *)

Module Store.

(** What a failing call raises: the text of the exception. *)
Inductive result (A : Type) : Type :=
| Ok (a : A)
| Raise (e : string).
Arguments Ok {A} a.
Arguments Raise {A} e.

(** A row of the [names] table, as [to_sqlite] writes it. *)
Record name_row := {
  nr_tracking_id : N;
  nr_first_name : string;
  nr_last_name : string;
  nr_imported_at : string;
  nr_source_file : string }.

(** A row of the [scans] table without its surrogate key [id], which is
    the position of the row in the table. *)
Record scan_row := {
  sc_tracking_id : N;
  sc_first_name : string;
  sc_last_name : string;
  sc_time_hhmm : string;
  sc_date_mmddyyyy : string }.

(** The [names] table with the unique index on [tracking_id], when it
    has been created. *)
Record names_table := {
  nt_rows : list name_row;
  nt_unique : bool }.

(** The committed content of the database file; a table that was never
    created is [None]. *)
Record database := {
  names : option names_table;
  scans : option (list scan_row) }.

(** Directories, and files as the sequence of records written to them,
    each record being its cells in order. *)
Record filesystem := {
  dirs : gset string;
  files : gmap string (list (list string)) }.

(** [a / b] on paths. *)
Definition path_join (a b : string) : string := a +:+ "/" +:+ b.

(** [d.mkdir(parents=True, exist_ok=True)] for a directory [d] directly
    under [parent]. *)
Definition mkdir_p (parent d : string) (fs : filesystem) : filesystem :=
  {| dirs := {[ parent; d ]} ∪ dirs fs; files := files fs |}.

(** The integers SQLite stores: binding a larger Python integer to a
    statement raises [OverflowError]. *)
Definition sqlite_max_int : N := 9223372036854775807.

End Store.

(** * [student_input.py]: roster normalisation and import *)

Module student_input.
Import Py Store.

(** ** Settings *)

Definition INPUT_CSV_NAME : string := "students.csv".
Definition OUTPUT_DIR : string := "/home/ddb/Documents/ouput".
Definition OUTPUT_CSV_NAME : string := "students_with_tracking_id.csv".
Definition COMBINED_NAME_COL : string := "Student Name".
Definition FIRST_COL : string := "First Name".
Definition LAST_COL : string := "Last Name".

(** [SQL_IF_EXISTS]: the two modes the settings name. *)
Inductive if_exists := Replace | Append.
Definition SQL_IF_EXISTS : if_exists := Replace.

(** ** Helpers *)

Definition _norm (s : string) : string := sub_ws false (strip s).

Definition to_title (s : string) : string :=
  let s := _norm s in
  if negb (truthy s) then s
  else join " "
         (map (fun w => if isupper w && (1 <? String.length w) then w else capitalize w)
              (re_split_ws s)).

(** [re.match(r"^[A-Z]\.?$", s)]: an upper-case letter, then at most one
    period; [$] also accepts a final line feed. *)
Definition match_initial (s : string) : bool :=
  match s with
  | String c rest =>
      is_upper c &&
      match rest with
      | "" | "." | String "010" "" | String "." (String "010" "") => true
      | _ => false
      end
  | EmptyString => false
  end.

Definition clean_first (first : string) : string :=
  let first := _norm first in
  if (String.length first =? 1) || match_initial first then ""
  else to_title first.

Definition parse_fullname (raw : string) : string * string :=
  let raw := _norm raw in
  if negb (truthy raw) then ("", "")
  else if has_comma raw then
    match map strip (split_comma1 raw) with
    | [last; given] =>
        let tokens := split given in
        let first := match tokens with t :: _ => t | [] => "" end in
        (clean_first first, to_title last)
    | _ => ("", "") (* not reached: a string with a comma splits in two *)
    end
  else
    let tokens := split raw in
    match tokens with
    | [t] => (clean_first t, "")
    | _ => (* at least two tokens: [raw] is not blank *)
        (clean_first (hd "" tokens), to_title (List.last tokens ""))
    end.

(** ** The input table *)

(** What [read_csv] returns with [dtype=str, keep_default_na=False]: the
    header and the records, every cell a string. *)
Record dataframe := {
  columns : list string;
  records : list (list string) }.

Fixpoint col_index (c : string) (cols : list string) : option nat :=
  match cols with
  | [] => None
  | c' :: cols' => if String.eqb c' c then Some 0 else S <$> col_index c cols'
  end.

(** [df[col]], for a column that is there. *)
Definition series (df : dataframe) (i : nat) : list string :=
  map (fun r => nth i r "") (records df).

(** A roster row. *)
Record entry := {
  tracking_id : N;
  first_name : string;
  last_name : string }.

(** ** [sort_values(by=["first_name", "last_name"], kind="mergesort")] *)

(** Ascending order on the pair of columns, strings compared as Python
    compares them, code point by code point. *)
Definition row_leb (a b : string * string) : bool :=
  match String.compare (fst a) (fst b) with
  | Lt => true
  | Eq => String.leb (snd a) (snd b)
  | Gt => false
  end.

Section Mergesort.
Context {A : Type} (leb : A -> A -> bool).

(** The left run wins ties, which is what makes the sort stable. *)
Fixpoint merge (l1 : list A) : list A -> list A :=
  fix merge_right (l2 : list A) : list A :=
    match l1, l2 with
    | [], _ => l2
    | _, [] => l1
    | a :: l1', b :: l2' =>
        if leb a b then a :: merge l1' l2 else b :: merge_right l2'
    end.

(** Top-down merge sort; [n] bounds the depth of the recursion and is
    taken to be the length of the list. *)
Fixpoint mergesort_rec (n : nat) (l : list A) : list A :=
  match n, l with
  | S n', _ :: _ :: _ =>
      let half := Nat.div2 (length l) in
      merge (mergesort_rec n' (firstn half l)) (mergesort_rec n' (skipn half l))
  | _, _ => l
  end.

Definition mergesort (l : list A) : list A := mergesort_rec (length l) l.
End Mergesort.

Definition sort_values (out : list (string * string)) : list (string * string) :=
  mergesort row_leb out.

(** [range(a, b)]. *)
Definition range (a b : N) : list N :=
  map (fun i => (a + N.of_nat i)%N) (seq 0 (N.to_nat (b - a))).

Definition usable (r : string * string) : bool :=
  (0 <? String.length (fst r)) || (0 <? String.length (snd r)).

Definition finalize (out : list (string * string)) : list entry :=
  let out := List.filter usable out in
  let out := sort_values out in
  map (fun p => {| tracking_id := fst p; first_name := fst (snd p); last_name := snd (snd p) |})
      (combine (range 100 (100 + N.of_nat (length out))) out).

Definition build_from_combined (df : dataframe) (col : string) : result (list entry) :=
  match col_index col (columns df) with
  | None => Raise ("Combined name column '" +:+ col +:+ "' not found in CSV.")
  | Some i =>
      let parsed := map parse_fullname (series df i) in
      Ok (finalize (combine (map fst parsed) (map snd parsed)))
  end.

Definition build_from_separate (df : dataframe) (first_col last_col : string)
  : result (list entry) :=
  match col_index first_col (columns df), col_index last_col (columns df) with
  | None, _ => Raise ("Column '" +:+ first_col +:+ "' not found in CSV.")
  | Some _, None => Raise ("Column '" +:+ last_col +:+ "' not found in CSV.")
  | Some i, Some j =>
      Ok (finalize (combine (map clean_first (series df i)) (map to_title (series df j))))
  end.

(** ** Persisting the roster *)

Definition stamp_row (imported_at : string) (e : entry) : name_row :=
  {| nr_tracking_id := tracking_id e;
     nr_first_name := first_name e;
     nr_last_name := last_name e;
     nr_imported_at := imported_at;
     nr_source_file := INPUT_CSV_NAME |}.

Fixpoint distinct (ids : list N) : bool :=
  match ids with
  | [] => true
  | i :: ids' => negb (existsb (N.eqb i) ids') && distinct ids'
  end.

(** [to_sqlite]: the new content of the database and, when a statement
    fails, what it raises.  [imported_at] is the UTC time of the call.
    With "replace" the table is dropped and written afresh and then the
    unique index is built, which SQLite refuses over duplicate ids; with
    "append" the rows are added to the table as it is, and an index kept
    from an earlier import refuses a colliding id. *)
Definition to_sqlite (df : list entry) (imported_at : string) (mode : if_exists)
    (db : database) : database * option string :=
  let df_sql := map (stamp_row imported_at) df in
  match mode with
  | Replace =>
      if distinct (map nr_tracking_id df_sql)
      then ({| names := Some {| nt_rows := df_sql; nt_unique := true |};
               scans := scans db |}, None)
      else ({| names := Some {| nt_rows := df_sql; nt_unique := false |};
               scans := scans db |},
            Some "UNIQUE constraint failed: names.tracking_id")
  | Append =>
      match names db with
      | None =>
          ({| names := Some {| nt_rows := df_sql; nt_unique := false |};
              scans := scans db |}, None)
      | Some t =>
          if nt_unique t && negb (distinct (map nr_tracking_id (nt_rows t ++ df_sql)))
          then (db, Some "UNIQUE constraint failed: names.tracking_id")
          else ({| names := Some {| nt_rows := nt_rows t ++ df_sql;
                                    nt_unique := nt_unique t |};
                   scans := scans db |}, None)
      end
  end.

(** Where [write_output_csv] can raise, with the text of the exception:
    [mkdir] on a location that cannot be created, [to_csv] when it opens
    the file, and [to_csv] while it writes, after [written] records. *)
Inductive write_fault :=
| MkdirFails (e : string)
| OpenFails (e : string)
| WriteFails (written : nat) (e : string).

(** [write_output_csv]: the mirror file, rewritten whole.  The result is
    the file system it leaves and, when a call fails, what it raises:
    [mkdir] raises on its own when a file stands at [out_dir], and
    [failure] is what the environment makes fail. *)
Definition write_output_csv (df : list entry) (out_dir filename : string)
    (failure : option write_fault) (fs : filesystem) : filesystem * option string :=
  let out_path := path_join out_dir filename in
  let content :=
    ["first_name"; "last_name"; "tracking_id"]
    :: map (fun e => [first_name e; last_name e; str_of_N (tracking_id e)]) df in
  if bool_decide (is_Some (files fs !! out_dir))
  then (fs, Some ("[Errno 17] File exists: '" +:+ out_dir +:+ "'"))
  else
    match failure with
    | Some (MkdirFails e) => (fs, Some e)
    | Some (OpenFails e) =>
        ({| dirs := {[ out_dir ]} ∪ dirs fs; files := files fs |}, Some e)
    | Some (WriteFails written e) =>
        ({| dirs := {[ out_dir ]} ∪ dirs fs;
            files := <[ out_path := firstn written content ]> (files fs) |}, Some e)
    | None =>
        ({| dirs := {[ out_dir ]} ∪ dirs fs;
            files := <[ out_path := content ]> (files fs) |}, None)
    end.

(** ** Menu *)

(** How a call ends: with a value, or with [sys.exit(code)]. *)
Inductive control (A : Type) : Type :=
| Return (a : A)
| SystemExit (code : N).
Arguments Return {A} a.
Arguments SystemExit {A} code.

(** [typed] is the line the operator enters at the prompt. *)
Definition menu (typed : string) : control string :=
  let choice := strip typed in
  if negb (existsb (String.eqb choice) ["2"]) then SystemExit 1
  else Return choice.

(** [main]: the exit status and the stores it leaves.  [csv] is what
    [read_csv] gives for the configured path (it raises on an unreadable
    file), [now] the UTC time used as import stamp and [failure] what
    fails in [write_output_csv], which runs after the database has been
    written. *)
Definition main (typed : string) (csv : result dataframe) (now : string)
    (failure : option write_fault) (w : database * filesystem)
  : N * (database * filesystem) :=
  match menu typed with
  | SystemExit code => (code, w)
  | Return choice =>
      match csv with
      | Raise _ => (2%N, w)
      | Ok df =>
          match (if String.eqb choice "1"
                 then build_from_combined df COMBINED_NAME_COL
                 else build_from_separate df FIRST_COL LAST_COL) with
          | Raise _ => (2%N, w)
          | Ok cleaned =>
              match to_sqlite cleaned now SQL_IF_EXISTS (fst w) with
              | (db', Some _) => (2%N, (db', snd w))
              | (db', None) =>
                  match write_output_csv cleaned OUTPUT_DIR OUTPUT_CSV_NAME failure
                          (snd w) with
                  | (fs', Some _) => (2%N, (db', fs'))
                  | (fs', None) => (0%N, (db', fs'))
                  end
              end
          end
      end
  end.

End student_input.

(** * [live_scanner_static.py]: the scan loop *)

Module live_scanner_static.
Import Py Store.

(** ** Settings *)

Definition OUTPUT_DIR : string := "/home/ddb/Documents/daily_list".
Definition COLOR_MAIN : string := "bold green".
Definition COLOR_WARN : string := "bold yellow".
Definition COLOR_ERROR : string := "bold red".

(** ** The clock *)

(** A reading of [datetime.now()], down to the minute. *)
Record datetime := {
  year : N;
  month : N;
  day : N;
  hour : N;
  minute : N }.

(** A reading the clock can give. *)
Definition valid_datetime (t : datetime) : Prop :=
  (1 <= month t <= 12 /\ 1 <= day t <= 31 /\ hour t <= 23 /\ minute t <= 59)%N.

Fixpoint zeros (n : nat) : string :=
  match n with O => "" | S n' => String "0" (zeros n') end.

(** A number in decimal, zero-padded to [width] digits: the fields
    [%m], [%d], [%H] and [%M] of [strftime] have width 2.  The field [%Y]
    is the year in decimal, [str_of_N]. *)
Definition padded (width : nat) (n : N) : string :=
  let s := str_of_N n in
  zeros (width - String.length s) +:+ s.

(** [now.strftime("%H:%M")] *)
Definition strftime_HM (now : datetime) : string :=
  padded 2 (hour now) +:+ ":" +:+ padded 2 (minute now).

(** [now.strftime("%m:%d:%Y")] *)
Definition strftime_mdY (now : datetime) : string :=
  padded 2 (month now) +:+ ":" +:+ padded 2 (day now) +:+ ":" +:+ str_of_N (year now).

(** [now.strftime("%m_%Y")] *)
Definition strftime_month_folder (now : datetime) : string :=
  padded 2 (month now) +:+ "_" +:+ str_of_N (year now).

(** [now.strftime("%m_%d_%Y.csv")] *)
Definition strftime_filename (now : datetime) : string :=
  padded 2 (month now) +:+ "_" +:+ padded 2 (day now) +:+ "_"
    +:+ str_of_N (year now) +:+ ".csv".

(** ** The session *)

(** Everything a cycle of the loop reads or writes: the database file,
    the rows inserted on the connection and not yet committed, the file
    system, and the three variables of [main]. *)
Record session := {
  db : database;
  txn : list scan_row;
  fs : filesystem;
  history : list scan_row;
  current_line : string;
  subline : string }.

Definition set_db (d : database) (s : session) : session :=
  {| db := d; txn := txn s; fs := fs s; history := history s;
     current_line := current_line s; subline := subline s |}.
Definition set_txn (t : list scan_row) (s : session) : session :=
  {| db := db s; txn := t; fs := fs s; history := history s;
     current_line := current_line s; subline := subline s |}.
Definition set_fs (f : filesystem) (s : session) : session :=
  {| db := db s; txn := txn s; fs := f; history := history s;
     current_line := current_line s; subline := subline s |}.
Definition set_history (h : list scan_row) (s : session) : session :=
  {| db := db s; txn := txn s; fs := fs s; history := h;
     current_line := current_line s; subline := subline s |}.
Definition set_message (m : string * string) (s : session) : session :=
  {| db := db s; txn := txn s; fs := fs s; history := history s;
     current_line := fst m; subline := snd m |}.

(** Where a call into the database or the file system can raise. *)
Inductive fault_point :=
| AtLookup          (* the SELECT *)
| AtInsert          (* the INSERT *)
| AtCommit          (* the commit; the transaction stays open *)
| AtCommitRollback  (* the commit; the engine rolls the transaction back *)
| AtMkdir           (* creating the month directory *)
| AtOpen            (* opening the daily file *)
| AtHeader          (* writing the header *)
| AtRow.            (* writing the row *)

Definition fault_point_eqb (a b : fault_point) : bool :=
  match a, b with
  | AtLookup, AtLookup | AtInsert, AtInsert | AtCommit, AtCommit
  | AtCommitRollback, AtCommitRollback | AtMkdir, AtMkdir | AtOpen, AtOpen
  | AtHeader, AtHeader | AtRow, AtRow => true
  | _, _ => false
  end.

(** The failure an environment injects into one cycle: the place, and
    the text of the exception. *)
Record fault := {
  place : fault_point;
  what : string }.

(** ** Programs over the session

    A program returns the states the session went through, one per
    effect and in order, and its value or the exception it raised.  The
    state it ends in is the last of them. *)
Definition prog (A : Type) : Type := session -> list session * result A.

Definition ret {A} (a : A) : prog A := fun _ => ([], Ok a).
Definition raise {A} (e : string) : prog A := fun _ => ([], Raise e).
Definition bind {A B} (m : prog A) (k : A -> prog B) : prog B :=
  fun s =>
    match m s with
    | (tr, Raise e) => (tr, Raise e)
    | (tr, Ok a) => let '(tr', r) := k a (List.last tr s) in (tr ++ tr', r)
    end.
Definition gets {A} (f : session -> A) : prog A := fun s => ([], Ok (f s)).
Definition effect (f : session -> session) : prog unit := fun s => ([f s], Ok tt).
(** [try: m except Exception as e: h e] *)
Definition try_except {A} (m : prog A) (h : string -> prog A) : prog A :=
  fun s =>
    match m s with
    | (tr, Ok a) => (tr, Ok a)
    | (tr, Raise e) => let '(tr', r) := h e (List.last tr s) in (tr ++ tr', r)
    end.

Declare Scope prog_scope.
Delimit Scope prog_scope with prog.
Notation "x ← y ; z" := (bind y (fun x => z))
  (at level 20, y at level 100, z at level 200, only parsing) : prog_scope.
Notation "' x ← y ; z" := (bind y (fun x => z))
  (at level 20, x pattern, y at level 100, z at level 200, only parsing) : prog_scope.
Notation "x ;; z" := (bind x (fun _ => z))
  (at level 100, z at level 200, only parsing, right associativity) : prog_scope.
Local Open Scope prog_scope.

Section Cycle.
(** The failure injected into the cycle, if any. *)
Context (failure : option fault).

(** The call at [p] raises when the failure is placed there. *)
Definition may_raise (p : fault_point) : prog unit :=
  match failure with
  | Some f => if fault_point_eqb (place f) p then raise (what f) else ret tt
  | None => ret tt
  end.

(** *** DB helpers *)

Definition fetch_name_by_tracking_id (tid : N) : prog (option (string * string)) :=
  may_raise AtLookup ;;
  (if (sqlite_max_int <? tid)%N
   then raise "Python int too large to convert to SQLite INTEGER"
   else ret tt) ;;
  tbl ← gets (fun s => names (db s));
  match tbl with
  | None => raise "no such table: names"
  | Some t =>
      let row := List.find (fun r => N.eqb (nr_tracking_id r) tid) (nt_rows t) in
      ret (match row with
           | Some r => Some (nr_first_name r, nr_last_name r)
           | None => None
           end)
  end.

Definition execute_insert (r : scan_row) : prog unit :=
  may_raise AtInsert ;;
  tbl ← gets (fun s => scans (db s));
  match tbl with
  | None => raise "no such table: scans"
  | Some _ => effect (fun s => set_txn (txn s ++ [r]) s)
  end.

Definition commit : prog unit :=
  may_raise AtCommit ;;
  (match failure with
   | Some f =>
       if fault_point_eqb (place f) AtCommitRollback
       then effect (set_txn []) ;; raise (what f)
       else ret tt
   | None => ret tt
   end) ;;
  effect (fun s =>
    set_txn []
      (set_db {| names := names (db s);
                 scans := Some (default [] (scans (db s)) ++ txn s) |} s)).

Definition insert_scan (now : datetime) (tid : N) (first last : string)
  : prog (string * string) :=
  let time_hhmm := strftime_HM now in
  let date_mmddyyyy := strftime_mdY now in
  execute_insert {| sc_tracking_id := tid; sc_first_name := first;
                    sc_last_name := last; sc_time_hhmm := time_hhmm;
                    sc_date_mmddyyyy := date_mmddyyyy |} ;;
  commit ;;
  ret (time_hhmm, date_mmddyyyy).

(** *** Daily CSV helpers *)

Definition get_daily_csv_path (base_dir : string) (now : datetime) : prog string :=
  let month_folder := strftime_month_folder now in
  let filename := strftime_filename now in
  let out_dir := path_join base_dir month_folder in
  may_raise AtMkdir ;;
  effect (fun s => set_fs (mkdir_p base_dir out_dir (fs s)) s) ;;
  ret (path_join out_dir filename).

Definition fieldnames : list string :=
  ["tracking_id"; "first_name"; "last_name"; "time_hhmm"; "date_mmddyyyy"].

(** The cells [writer.writerow(row)] writes, in the order of
    [fieldnames]. *)
Definition cells (row : scan_row) : list string :=
  [str_of_N (sc_tracking_id row); sc_first_name row; sc_last_name row;
   sc_time_hhmm row; sc_date_mmddyyyy row].

(** [path.open("a")] creates the file when it is not there. *)
Definition open_append (path : string) (f : filesystem) : filesystem :=
  {| dirs := dirs f;
     files := <[ path := default [] (files f !! path) ]> (files f) |}.

Definition write_record (path : string) (rec : list string) (f : filesystem)
  : filesystem :=
  {| dirs := dirs f;
     files := <[ path := default [] (files f !! path) ++ [rec] ]> (files f) |}.

(** [now] is the clock as [append_daily_csv] reads it itself. *)
Definition append_daily_csv (base_dir : string) (row : scan_row) (now : datetime)
  : prog string :=
  path ← get_daily_csv_path base_dir now;
  file_exists ← gets (fun s => bool_decide (is_Some (files (fs s) !! path)));
  may_raise AtOpen ;;
  effect (fun s => set_fs (open_append path (fs s)) s) ;;
  (if negb file_exists
   then may_raise AtHeader ;;
        effect (fun s => set_fs (write_record path fieldnames (fs s)) s)
   else ret tt) ;;
  may_raise AtRow ;;
  effect (fun s => set_fs (write_record path (cells row) (fs s)) s) ;;
  ret path.

(** *** Input / Normalize *)

Definition normalize_scan (s : string) : option N :=
  let digits := str_filter is_digit s in
  if negb (truthy digits) then None
  else match int digits with
       | Some n => Some n
       | None => None
       end.

(** *** Main *)

(** [history.appendleft(e)] on a [deque(maxlen=3)]. *)
Definition appendleft (e : scan_row) (h : list scan_row) : list scan_row :=
  firstn 3 (e :: h).

Definition msg_begin : string * string :=
  ("[dim]Scan or type a tracking_id to begin...[/dim]", "Press Ctrl+C to exit.").
Definition msg_invalid (raw : string) : string * string :=
  ("[" +:+ COLOR_WARN +:+ "]Invalid scan[/]  (got: '" +:+ raw +:+ "'). Try again.",
   "Expecting digits (tracking_id).").
Definition msg_not_found (tid : N) : string * string :=
  ("[" +:+ COLOR_ERROR +:+ "]ID " +:+ str_of_N tid +:+ " not found[/]",
   "Make sure the names table is loaded and IDs start at 100.").
Definition msg_success (tid : N) (first last hhmm mdy csv_path : string)
  : string * string :=
  ("[" +:+ COLOR_MAIN +:+ "]" +:+ first +:+ " " +:+ last +:+ "[/]   [dim](ID "
     +:+ str_of_N tid +:+ ")[/dim]",
   "[dim]" +:+ hhmm +:+ "  " +:+ mdy +:+ "[/dim]  [dim]→ " +:+ csv_path +:+ "[/dim]").
Definition msg_error (e : string) : string * string :=
  ("[" +:+ COLOR_ERROR +:+ "]Error:[/] " +:+ e, "Check console and DB paths.").

(** One pass of the [while] body on the line [typed]; [t_insert] and
    [t_append] are the readings of the clock in [insert_scan] and in
    [append_daily_csv]. *)
Definition cycle_body (typed : string) (t_insert t_append : datetime) : prog unit :=
  let raw := strip typed in
  match normalize_scan raw with
  | None => effect (set_message (msg_invalid raw))
  | Some tid =>
      found ← fetch_name_by_tracking_id tid;
      match found with
      | None => effect (set_message (msg_not_found tid))
      | Some (first, last) =>
          '(hhmm, mdy) ← insert_scan t_insert tid first last;
          csv_path ← append_daily_csv OUTPUT_DIR
                        {| sc_tracking_id := tid; sc_first_name := first;
                           sc_last_name := last; sc_time_hhmm := hhmm;
                           sc_date_mmddyyyy := mdy |} t_append;
          effect (set_message (msg_success tid first last hhmm mdy csv_path)) ;;
          effect (fun s =>
            set_history
              (appendleft {| sc_tracking_id := tid; sc_first_name := first;
                             sc_last_name := last; sc_time_hhmm := hhmm;
                             sc_date_mmddyyyy := mdy |} (history s)) s)
      end
  end.

Definition cycle_prog (typed : string) (t_insert t_append : datetime) : prog unit :=
  try_except (cycle_body typed t_insert t_append)
             (fun e => effect (set_message (msg_error e))).
End Cycle.

(** What one turn of the loop receives: the line, the two readings of
    the clock, and the failure the environment injects. *)
Record scan := {
  typed : string;
  t_insert : datetime;
  t_append : datetime;
  failure : option fault }.

(** The states one cycle goes through, and the state it ends in. *)
Definition cycle_trace (sc : scan) (s : session) : list session :=
  fst (cycle_prog (failure sc) (typed sc) (t_insert sc) (t_append sc) s).

Definition cycle (sc : scan) (s : session) : session :=
  List.last (cycle_trace sc s) s.

Definition ensure_scans_table (d : database) : database :=
  {| names := names d;
     scans := Some (default [] (scans d)) |}.

(** The session as [main] sets it up before the loop. *)
Definition start (d : database) (f : filesystem) : session :=
  {| db := ensure_scans_table d;
     txn := [];
     fs := {| dirs := {[ OUTPUT_DIR ]} ∪ dirs f; files := files f |};
     history := [];
     current_line := fst msg_begin;
     subline := snd msg_begin |}.

(** The loop over the lines read, until the input ends or an interrupt
    arrives at the prompt ([None]).  An interrupt inside a cycle stops the
    execution in one of the states of [cycle_trace]. *)
Fixpoint loop (inputs : list (option scan)) (s : session) : session :=
  match inputs with
  | [] => s
  | None :: _ => s
  | Some sc :: rest => loop rest (cycle sc s)
  end.

End live_scanner_static.

(** * Vocabulary of the properties *)

Import Py Store student_input live_scanner_static.

(** ** Text *)

Fixpoint str_all (p : ascii -> bool) (s : string) : bool :=
  match s with
  | EmptyString => true
  | String c s' => p c && str_all p s'
  end.

(** The only blank a normalised string contains is the space. *)
Definition plain_blank (c : ascii) : bool := negb (is_space c) || Ascii.eqb c " ".

(** The values of a two-digit field. *)
Definition upto_99 : list N := map N.of_nat (seq 0 100).

(** ** Rosters *)

(** Two rows with the same sort key. *)
Definition tied {A : Type} (leb : A -> A -> bool) (a b : A) : bool := leb a b && leb b a.

Definition names_of (e : entry) : string * string := (first_name e, last_name e).

Definition both_empty (r : string * string) : bool :=
  String.eqb (fst r) "" && String.eqb (snd r) "".

(** The normalised rows of a table read in separate mode, from the columns
    at positions [i] and [j], and in combined mode, from the column at [i]. *)
Definition separate_rows (df : dataframe) (i j : nat) : list (string * string) :=
  map (fun r => (clean_first (nth i r ""), to_title (nth j r ""))) (records df).

Definition combined_rows (df : dataframe) (i : nat) : list (string * string) :=
  map (fun r => parse_fullname (nth i r "")) (records df).

(** ** Scans *)

(** [<root>/<MM_YYYY>/<MM_DD_YYYY>.csv] *)
Definition daily_path (base_dir : string) (now : datetime) : string :=
  path_join (path_join base_dir (strftime_month_folder now)) (strftime_filename now).

(** Two readings of the clock on the same calendar date. *)
Definition same_day (t t' : datetime) : Prop :=
  year t = year t' /\ month t = month t' /\ day t = day t'.

(** The records of the file at [p]; none when the file is not there. *)
Definition recs (f : filesystem) (p : string) : list (list string) :=
  default [] (files f !! p).

(** The header, for a file that is not there yet. *)
Definition header_if_new (f : filesystem) (p : string) : list (list string) :=
  if bool_decide (is_Some (files f !! p)) then [] else [fieldnames].

(** What the roster table answers for an id. *)
Definition lookup (d : database) (tid : N) : option (string * string) :=
  match names d with
  | Some t =>
      match List.find (fun r => N.eqb (nr_tracking_id r) tid) (nt_rows t) with
      | Some r => Some (nr_first_name r, nr_last_name r)
      | None => None
      end
  | None => None
  end.

(** The event of a scan: the row it is to record, when its digits are an
    id the database can hold and the roster has. *)
Definition recorded (sc : scan) (s : session) : option scan_row :=
  match normalize_scan (strip (typed sc)) with
  | Some tid =>
      if (sqlite_max_int <? tid)%N then None
      else match lookup (db s) tid with
           | Some (first, last) =>
               Some {| sc_tracking_id := tid; sc_first_name := first; sc_last_name := last;
                       sc_time_hhmm := strftime_HM (t_insert sc);
                       sc_date_mmddyyyy := strftime_mdY (t_insert sc) |}
           | None => None
           end
  | None => None
  end.

(** The states of a cycle that records the event [r], one per effect:
    the row inserted on the connection, the commit, the month directory,
    the file opened, its header, its row, the message and the history. *)
Section HitTrace.
Context (sc : scan) (s : session) (r : scan_row).

Definition month_dir : string := path_join OUTPUT_DIR (strftime_month_folder (t_append sc)).
Definition csv_path : string := daily_path OUTPUT_DIR (t_append sc).
Definition existed : bool := bool_decide (is_Some (files (fs s) !! csv_path)).

Definition inserted : session := set_txn (txn s ++ [r]) s.
Definition rolled_back : session := set_txn [] inserted.
Definition committed : session :=
  set_txn [] (set_db {| names := names (db s);
                        scans := Some (default [] (scans (db s)) ++ txn s ++ [r]) |} s).
Definition with_dir : session :=
  set_fs (mkdir_p OUTPUT_DIR month_dir (fs s)) committed.
Definition opened : session :=
  set_fs (open_append csv_path (fs with_dir)) with_dir.
Definition headed : session :=
  if existed then opened
  else set_fs (write_record csv_path fieldnames (fs opened)) opened.
Definition written : session :=
  set_fs (write_record csv_path (cells r) (fs headed)) headed.
Definition announced : session :=
  set_message (msg_success (sc_tracking_id r) (sc_first_name r) (sc_last_name r)
                 (sc_time_hhmm r) (sc_date_mmddyyyy r) csv_path) written.
Definition remembered : session :=
  set_history (appendleft r (history s)) announced.

Definition failed (e : string) (s' : session) : session := set_message (msg_error e) s'.

Definition success_trace : list session :=
  [inserted; committed; with_dir; opened] ++ (if existed then [] else [headed])
    ++ [written; announced; remembered].

(** The states of the cycle of a scan whose id is found, by the place
    of the failure. *)
Definition hit_trace : list session :=
  match failure sc with
  | None => success_trace
  | Some f =>
      match place f with
      | AtLookup | AtInsert => [failed (what f) s]
      | AtCommit => [inserted; failed (what f) inserted]
      | AtCommitRollback => [inserted; rolled_back; failed (what f) rolled_back]
      | AtMkdir => [inserted; committed; failed (what f) committed]
      | AtOpen => [inserted; committed; with_dir; failed (what f) with_dir]
      | AtHeader =>
          if existed then success_trace
          else [inserted; committed; with_dir; opened; failed (what f) opened]
      | AtRow =>
          [inserted; committed; with_dir; opened] ++ (if existed then [] else [headed])
            ++ [failed (what f) headed]
      end
  end.
End HitTrace.

(** The messages of a cycle that records nothing. *)
Definition rejection (m : string * string) : Prop :=
  (exists raw, m = msg_invalid raw) \/ (exists tid, m = msg_not_found tid) \/
  (exists e, m = msg_error e).

(** What a state inside a cycle can be, relative to the state [s] the
    cycle started from: either nothing has been committed or written yet,
    or the event [r] of the scan is committed and the daily file holds its
    old records followed by a part [k] of what the event adds. *)
Definition before_commit (s s' : session) : Prop :=
  scans (db s') = scans (db s) /\ fs s' = fs s /\ history s' = history s.

Definition after_commit (sc : scan) (s : session) (r : scan_row) (s' : session) : Prop :=
  scans (db s') = Some (default [] (scans (db s)) ++ txn s ++ [r]) /\
  txn s' = [] /\
  (files (fs s') = files (fs s) \/
   exists k, k `prefix_of` header_if_new (fs s) (csv_path sc) ++ [cells r] /\
     files (fs s') = <[ csv_path sc := recs (fs s) (csv_path sc) ++ k ]> (files (fs s))) /\
  (history s' = history s \/ s' = remembered sc s r).

(** The failure is raised by [append_daily_csv]. *)
Definition fails_in_append (sc : scan) (s : session) (f : fault) : Prop :=
  failure sc = Some f /\
  (place f = AtMkdir \/ place f = AtOpen \/ place f = AtRow \/
   (place f = AtHeader /\ files (fs s) !! csv_path sc = None)).

(** The scans of a sequence that write to the file [p], and the rows
    they add to it, in order. *)
Definition hits (p : string) (scs : list scan) : bool :=
  existsb (fun sc => String.eqb (csv_path sc) p) scs.

Definition rows_into (p : string) (s : session) (scs : list scan) : list (list string) :=
  flat_map (fun sc =>
              if String.eqb (csv_path sc) p
              then match recorded sc s with Some r => [cells r] | None => [] end
              else []) scs.

(** ** Executions *)

(** The states between two cycles of the loop started in [s0]. *)
Inductive reachable (s0 : session) : session -> Prop :=
| reach_start : reachable s0 s0
| reach_cycle (sc : scan) (s : session) :
    reachable s0 s -> reachable s0 (cycle sc s).

(** Those states, and the states inside a cycle, where a crash or an
    interrupt can stop the execution. *)
Definition visited (s0 s' : session) : Prop :=
  reachable s0 s' \/ exists sc s, reachable s0 s /\ s' ∈ cycle_trace sc s.

(** Every record of a file is one the file had at the start, a header, or
    the row of an event that the table holds. *)
Definition csv_backed (s0 s : session) : Prop :=
  forall p rec, rec ∈ recs (fs s) p ->
    rec ∈ recs (fs s0) p \/ rec = fieldnames \/
    exists r, r ∈ default [] (scans (db s)) /\ rec = cells r.

(** The history is short, and each of its entries is in the committed
    table and in a file. *)
Definition history_sound (s : session) : Prop :=
  length (history s) <= 3 /\
  forall e, e ∈ history s ->
    e ∈ default [] (scans (db s)) /\ exists p, cells e ∈ recs (fs s) p.

(** ** Sample data *)

Definition smith_table : dataframe :=
  {| columns := ["Student Name"]; records := [["Smith, Jane A."]] |}.

Definition empty_stores : database * filesystem :=
  ({| names := None; scans := None |}, {| dirs := ∅; files := ∅ |}).

Definition sample_table : dataframe :=
  {| columns := ["First Name"; "Last Name"];
     records := [["amy"; "zed"]; ["B."; ""]; ["bob"; "stone"]; ["Amy"; "lee"]; ["x"; ""];
                 ["carl"; "young"]; ["dora"; "diaz"]; ["eve"; "ADAMS"]] |}.

Definition sample_db : database :=
  fst (to_sqlite (finalize (separate_rows sample_table 0 1)) "2025-08-28T12:00:00Z"
         Replace (fst empty_stores)).

Definition sample_session : session := start sample_db (snd empty_stores).

Definition no_digit_scan : scan :=
  {| typed := " abc! ";
     t_insert := {| year := 2025; month := 8; day := 28; hour := 9; minute := 5 |};
     t_append := {| year := 2025; month := 8; day := 28; hour := 9; minute := 5 |};
     failure := None |}.

Definition midnight_scan : scan :=
  {| typed := "id: 104 !";
     t_insert := {| year := 2025; month := 8; day := 28; hour := 23; minute := 59 |};
     t_append := {| year := 2025; month := 8; day := 29; hour := 0; minute := 0 |};
     failure := None |}.

Definition bad_disk : fault := {| place := AtRow; what := "[Errno 28] No space left on device" |}.

Definition failing_scan : scan :=
  {| typed := "102";
     t_insert := {| year := 2025; month := 8; day := 28; hour := 9; minute := 5 |};
     t_append := {| year := 2025; month := 8; day := 28; hour := 9; minute := 5 |};
     failure := Some bad_disk |}.

Definition morning : datetime := {| year := 2025; month := 8; day := 28; hour := 9; minute := 5 |}.
Definition noon : datetime := {| year := 2025; month := 8; day := 28; hour := 12; minute := 30 |}.
Definition next_day : datetime := {| year := 2025; month := 8; day := 29; hour := 8; minute := 0 |}.

Definition three_scans : list scan :=
  [ {| typed := "100"; t_insert := morning; t_append := morning; failure := None |};
    {| typed := "103"; t_insert := noon; t_append := noon; failure := None |};
    {| typed := "100"; t_insert := next_day; t_append := next_day; failure := None |} ].

Definition noon_scan : scan :=
  {| typed := "103"; t_insert := noon; t_append := noon; failure := None |}.

(** ** Tactics *)

(** A cycle that ends on a message of rejection. *)
Ltac rejected :=
  eexists; split; [reflexivity | unfold rejection; eauto].

(** A projection of a state of [hit_trace] that the cycle has not changed. *)
Ltac same_names :=
  first [ reflexivity
        | unfold failed, remembered, announced, written, headed;
          match goal with |- context [existed ?sc ?s] => destruct (existed sc s) end;
          reflexivity ].

Ltac same_history :=
  first [ reflexivity
        | unfold failed, written, headed;
          match goal with |- context [existed ?sc ?s] => destruct (existed sc s) end;
          reflexivity ].

(** ** Normal forms of text *)

(** A string without a blank at its end; [after_blank] tells that the
    character before it was a blank, and then it is not empty either. *)
Fixpoint trimmed (after_blank : bool) (s : string) : bool :=
  match s with
  | EmptyString => negb after_blank
  | String c s' => if is_space c then trimmed true s' else trimmed false s'
  end.

(** A string whose blanks are single spaces between other characters:
    none at either end, no two in a row, none but the space. *)
Fixpoint well_spaced (after_blank : bool) (s : string) : bool :=
  match s with
  | EmptyString => negb after_blank
  | String c s' =>
      if is_space c
      then negb after_blank && Ascii.eqb c " " && well_spaced true s'
      else well_spaced false s'
  end.

(** The events of a sequence of scans, in the order of the scans. *)
Definition events (s : session) (scs : list scan) : list scan_row :=
  flat_map (fun sc => match recorded sc s with Some r => [r] | None => [] end) scs.

(** * Properties *)

(** ** Text *)

Lemma sub_ws_plain (b : bool) (s : string) : str_all plain_blank (sub_ws b s) = true.
Proof.
  revert b; induction s as [|c s IH]; intros b; simpl; [reflexivity|].
  destruct (is_space c) eqn:Hc.
  - destruct b; simpl; auto.
  - simpl. unfold plain_blank at 1. rewrite Hc. simpl. apply IH.
Qed.

Lemma norm_plain (s : string) : str_all plain_blank (_norm s) = true.
Proof. apply sub_ws_plain. Qed.

Lemma match_initial_norm (s : string) :
  match_initial (_norm s) = true ->
  exists c, is_upper c = true /\ (_norm s = String c "" \/ _norm s = String c ".").
Proof.
  pose proof (norm_plain s) as Hp.
  destruct (_norm s) as [|c [|d [|e [|f r]]]]; simpl; try discriminate.
  - rewrite andb_true_r. eauto.
  - intros H. apply andb_true_iff in H as [Hc Hd]. exists c. split; [exact Hc|].
    destruct (Ascii.eqb_spec d "."); [subst; auto|].
    exfalso. simpl in Hp. apply andb_true_iff in Hp as [_ Hp]. rewrite andb_true_r in Hp.
    destruct d as [[] [] [] [] [] [] [] []]; try discriminate; congruence.
  - intros H. apply andb_true_iff in H as [Hc Hd]. exfalso.
    simpl in Hp. apply andb_true_iff in Hp as [_ Hp]. apply andb_true_iff in Hp as [_ Hp].
    rewrite andb_true_r in Hp.
    destruct d as [[] [] [] [] [] [] [] []]; try discriminate;
    destruct e as [[] [] [] [] [] [] [] []]; discriminate.
  - intros H. apply andb_true_iff in H as [_ H]. exfalso.
    destruct d as [[] [] [] [] [] [] [] []]; try discriminate;
    destruct e as [[] [] [] [] [] [] [] []]; discriminate.
Qed.

(** ** [clean_first] *)

(** C7: [clean_first] drops the single letters "a" and "A" and the
    initial "A.", but not the initial "a.", a single letter followed by a
    period: it comes back as "A.", which a second call would drop.  On a
    token of two words the result is not the title-cased token either: the
    words come back three blanks apart, as [to_title] leaves them. *)
Theorem clean_first_misses_lowercase_initial :
  clean_first "a" = "" /\ clean_first "A" = "" /\ clean_first "A." = "" /\
  clean_first "a." = "A." /\ clean_first (clean_first "a.") = "" /\
  clean_first "mary ann" = "Mary   Ann".
Proof. repeat split. Qed.

(** ** [to_title] *)

(** C8: on a two-word name the words come back separated by three blanks,
    not by the one blank of the normalised input: the separators that
    [re.split] keeps are joined with a blank on either side. *)
Theorem to_title_widens_separators :
  _norm "john smith" = "john smith" /\
  re_split_ws "john smith" = ["john"; " "; "smith"] /\
  to_title "john smith" = "John   Smith" /\
  to_title "john smith" <> "John Smith".
Proof. repeat split; discriminate. Qed.

(** ** The menu *)




(** ** Merge sort *)

Section MergesortFacts.
Context {A : Type} (leb : A -> A -> bool).
Hypothesis leb_total : forall a b, leb a b = true \/ leb b a = true.
Hypothesis leb_trans : forall a b c, leb a b = true -> leb b c = true -> leb a c = true.

Abbreviation le := (fun a b => leb a b = true).

Lemma filter_cons_eq (f : A -> bool) (a : A) (l : list A) :
  List.filter f (a :: l) = if f a then a :: List.filter f l else List.filter f l.
Proof. reflexivity. Qed.

Lemma merge_nil_r (l : list A) : merge leb l [] = l.
Proof. destruct l; reflexivity. Qed.

Lemma merge_cons (a b : A) (l1 l2 : list A) :
  merge leb (a :: l1) (b :: l2)
  = if leb a b then a :: merge leb l1 (b :: l2) else b :: merge leb (a :: l1) l2.
Proof. reflexivity. Qed.

Lemma merge_perm (l1 l2 : list A) : Permutation (merge leb l1 l2) (l1 ++ l2).
Proof.
  revert l2; induction l1 as [|a l1 IH1]; intros l2; [destruct l2; reflexivity|].
  induction l2 as [|b l2 IH2].
  - rewrite merge_nil_r, app_nil_r. reflexivity.
  - rewrite merge_cons. destruct (leb a b).
    + simpl. constructor. apply IH1.
    + etransitivity; [constructor; exact IH2|]. apply Permutation_middle.
Qed.

Lemma merge_sorted (l1 l2 : list A) :
  StronglySorted le l1 -> StronglySorted le l2 -> StronglySorted le (merge leb l1 l2).
Proof.
  revert l2; induction l1 as [|a l1 IH1]; intros l2 H1 H2; [destruct l2; exact H2|].
  induction l2 as [|b l2 IH2]; [rewrite merge_nil_r; exact H1|].
  rewrite merge_cons.
  apply StronglySorted_inv in H1 as H1'; destruct H1' as [H1t H1h].
  apply StronglySorted_inv in H2 as H2'; destruct H2' as [H2t H2h].
  destruct (leb a b) eqn:Hab.
  - constructor; [apply IH1; assumption|].
    eapply Permutation_Forall; [symmetry; apply merge_perm|].
    apply Forall_app; split; [exact H1h|].
    constructor; [exact Hab|].
    eapply List.Forall_impl; [|exact H2h]. intros c Hc. eapply leb_trans; eassumption.
  - assert (Hba : leb b a = true) by (destruct (leb_total a b); congruence).
    constructor; [apply IH2; assumption|].
    eapply Permutation_Forall; [symmetry; apply merge_perm|].
    apply Forall_app; split; [|exact H2h].
    constructor; [exact Hba|].
    eapply List.Forall_impl; [|exact H1h]. intros c Hc. eapply leb_trans; eassumption.
Qed.

(** Stability of a merge: the rows tied with [x] come out in the order
    they had, those of the left run first. *)
Lemma merge_stable (x : A) (l1 l2 : list A) :
  StronglySorted le l1 ->
  List.filter (tied leb x) (merge leb l1 l2)
  = List.filter (tied leb x) l1 ++ List.filter (tied leb x) l2.
Proof.
  revert l2; induction l1 as [|a l1 IH1]; intros l2 H1; [destruct l2; reflexivity|].
  induction l2 as [|b l2 IH2]; [rewrite merge_nil_r, app_nil_r; reflexivity|].
  rewrite merge_cons.
  apply StronglySorted_inv in H1 as H1'; destruct H1' as [H1t H1h].
  destruct (leb a b) eqn:Hab.
  - simpl. rewrite (IH1 _ H1t). simpl. destruct (tied leb x a); reflexivity.
  - rewrite (filter_cons_eq _ b (merge leb (a :: l1) l2)), (filter_cons_eq _ b l2), IH2.
    destruct (tied leb x b) eqn:Hxb; [|reflexivity].
    (* nothing in the left run is tied with [b], which is below all of it *)
    assert (Hnone : List.filter (tied leb x) (a :: l1) = []).
    { apply andb_true_iff in Hxb as [Hxb Hbx].
      assert (Hall : Forall (fun c => leb a c = true) (a :: l1)).
      { constructor; [destruct (leb_total a a); assumption | exact H1h]. }
      clear - Hall Hab Hxb Hbx leb_trans.
      induction Hall as [|c l Hc _ IH]; [reflexivity|].
      simpl. rewrite IH.
      destruct (tied leb x c) eqn:Hxc; [|reflexivity].
      apply andb_true_iff in Hxc as [_ Hcx].
      assert (leb a b = true) by eauto. congruence. }
    rewrite Hnone. reflexivity.
Qed.

Lemma mergesort_rec_spec (n : nat) (l : list A) :
  length l <= n ->
  Permutation (mergesort_rec leb n l) l /\
  StronglySorted le (mergesort_rec leb n l) /\
  forall x, List.filter (tied leb x) (mergesort_rec leb n l) = List.filter (tied leb x) l.
Proof.
  revert l; induction n as [|n IH]; intros l Hlen.
  - destruct l; [|simpl in Hlen; lia]. simpl. repeat split; constructor.
  - destruct l as [|a [|b l]].
    + simpl. repeat split; constructor.
    + simpl. repeat split; repeat constructor.
    + set (l0 := a :: b :: l) in *.
      assert (Hl0 : 2 <= length l0) by (simpl; lia).
      change (mergesort_rec leb (S n) l0)
        with (merge leb (mergesort_rec leb n (firstn (Nat.div2 (length l0)) l0))
                        (mergesort_rec leb n (skipn (Nat.div2 (length l0)) l0))).
      set (h := Nat.div2 (length l0)).
      assert (Hh : 1 <= h < length l0).
      { unfold h. generalize (Nat.div2_odd (length l0)).
        destruct (Nat.odd (length l0)); simpl Nat.b2n; lia. }
      destruct (IH (firstn h l0)) as (P1 & S1 & T1); [rewrite length_firstn; lia|].
      destruct (IH (skipn h l0)) as (P2 & S2 & T2); [rewrite length_skipn; lia|].
      repeat split.
      * rewrite merge_perm, P1, P2, firstn_skipn. reflexivity.
      * apply merge_sorted; assumption.
      * intros x. rewrite merge_stable by assumption.
        rewrite T1, T2, <- List.filter_app, firstn_skipn. reflexivity.
Qed.

Lemma mergesort_spec (l : list A) :
  Permutation (mergesort leb l) l /\
  StronglySorted le (mergesort leb l) /\
  forall x, List.filter (tied leb x) (mergesort leb l) = List.filter (tied leb x) l.
Proof. apply mergesort_rec_spec. reflexivity. Qed.
End MergesortFacts.

(** ** The order of the roster *)

Lemma compare_refl (s : string) : String.compare s s = Eq.
Proof.
  induction s as [|c s IH]; simpl; [reflexivity|].
  unfold Ascii.compare. rewrite N.compare_refl. exact IH.
Qed.

Lemma compare_lt_gt (a b : string) : String.compare a b = Lt -> String.compare b a = Gt.
Proof. intros H. rewrite String.compare_antisym, H. reflexivity. Qed.

Lemma compare_gt_lt (a b : string) : String.compare a b = Gt -> String.compare b a = Lt.
Proof. intros H. rewrite String.compare_antisym, H. reflexivity. Qed.

Lemma leb_trans (a b c : string) :
  String.leb a b = true -> String.leb b c = true -> String.leb a c = true.
Proof.
  intros H1 H2. apply Is_true_true. apply Is_true_true in H1, H2.
  exact (transitivity (R := String.le) H1 H2).
Qed.

Lemma compare_lt_trans (a b c : string) :
  String.compare a b = Lt -> String.compare b c = Lt -> String.compare a c = Lt.
Proof.
  intros H1 H2.
  assert (Hle : String.leb a c = true).
  { apply (leb_trans a b c); unfold String.leb; [rewrite H1 | rewrite H2]; reflexivity. }
  unfold String.leb in Hle.
  destruct (String.compare a c) eqn:Hac; [|reflexivity|discriminate].
  apply String.compare_eq_iff in Hac; subst c.
  apply compare_lt_gt in H1. congruence.
Qed.

Lemma row_leb_total (a b : string * string) : row_leb a b = true \/ row_leb b a = true.
Proof.
  unfold row_leb. destruct (String.compare (fst a) (fst b)) eqn:H.
  - apply String.compare_eq_iff in H. rewrite H, compare_refl.
    destruct (String.leb_total (snd a) (snd b)); auto.
  - auto.
  - rewrite (compare_gt_lt _ _ H). auto.
Qed.

Lemma row_leb_trans (a b c : string * string) :
  row_leb a b = true -> row_leb b c = true -> row_leb a c = true.
Proof.
  unfold row_leb.
  destruct (String.compare (fst a) (fst b)) eqn:Hab; [| |discriminate];
  destruct (String.compare (fst b) (fst c)) eqn:Hbc; try discriminate.
  - apply String.compare_eq_iff in Hab, Hbc. rewrite Hab, Hbc, compare_refl.
    apply leb_trans.
  - apply String.compare_eq_iff in Hab. rewrite Hab, Hbc. auto.
  - apply String.compare_eq_iff in Hbc. rewrite <- Hbc, Hab. auto.
  - rewrite (compare_lt_trans _ _ _ Hab Hbc). auto.
Qed.

(** Rows tied in the order are equal rows. *)
Lemma row_tied_eq (a b : string * string) : tied row_leb a b = true -> a = b.
Proof.
  unfold tied, row_leb. intros H. apply andb_true_iff in H as [H1 H2].
  destruct a as [a1 a2], b as [b1 b2]; simpl in *.
  destruct (String.compare a1 b1) eqn:E; [| |discriminate].
  - apply String.compare_eq_iff in E; subst b1. rewrite compare_refl in H2.
    f_equal. apply String.leb_antisym; assumption.
  - rewrite (compare_lt_gt _ _ E) in H2. discriminate.
Qed.

(** ** [finalize] *)

Lemma usable_not_both_empty (r : string * string) : usable r = negb (both_empty r).
Proof. destruct r as [[|] [|]]; reflexivity. Qed.

Lemma range_length (a b : N) : length (range a b) = N.to_nat (b - a).
Proof. unfold range. rewrite length_map, length_seq. reflexivity. Qed.

Lemma range_from_100 (n : nat) :
  range 100 (100 + N.of_nat n) = map (fun k => (100 + N.of_nat k)%N) (seq 0 n).
Proof. unfold range. replace (100 + N.of_nat n - 100)%N with (N.of_nat n) by lia.
  rewrite Nat2N.id. reflexivity. Qed.

Lemma map_fst_combine {A B} (l : list A) (k : list B) :
  length l <= length k -> map fst (combine l k) = l.
Proof.
  revert k; induction l as [|a l IH]; intros [|b k] H; simpl in *; try lia; auto.
  f_equal. apply IH. lia.
Qed.

Lemma map_snd_combine {A B} (l : list A) (k : list B) :
  length k <= length l -> map snd (combine l k) = k.
Proof.
  revert l; induction k as [|b k IH]; intros [|a l] H; simpl in *; try lia; auto.
  f_equal. apply IH. lia.
Qed.

Lemma finalize_names (out : list (string * string)) :
  map names_of (finalize out) = sort_values (List.filter usable out).
Proof.
  unfold finalize. set (l := sort_values (List.filter usable out)).
  rewrite map_map. unfold names_of. simpl.
  rewrite <- (map_map snd (fun p => (fst p, snd p))).
  rewrite map_snd_combine by (rewrite range_length; lia).
  rewrite <- (map_id l) at 2. apply map_ext. intros []; reflexivity.
Qed.

Lemma finalize_ids (out : list (string * string)) :
  map tracking_id (finalize out)
  = map (fun k => (100 + N.of_nat k)%N) (seq 0 (length (finalize out))).
Proof.
  unfold finalize. set (l := sort_values (List.filter usable out)).
  rewrite map_map. simpl. rewrite <- (map_map fst (fun x => x)), map_id.
  rewrite length_map, length_combine, range_length.
  replace (100 + N.of_nat (length l) - 100)%N with (N.of_nat (length l)) by lia.
  rewrite Nat2N.id, Nat.min_id.
  rewrite map_fst_combine by (rewrite range_length; lia).
  apply range_from_100.
Qed.

Lemma ids_from_100_NoDup (n : nat) :
  NoDup (map (fun k => (100 + N.of_nat k)%N) (seq 0 n)).
Proof.
  change (NoDup ((fun k => (100 + N.of_nat k)%N) <$> seq 0 n)).
  apply NoDup_fmap_2; [|apply NoDup_seq].
  intros x y H. lia.
Qed.

Lemma combine_map_map {A B C} (f : A -> B) (g : A -> C) (l : list A) :
  combine (map f l) (map g l) = map (fun a => (f a, g a)) l.
Proof. induction l as [|a l IH]; simpl; [reflexivity | rewrite IH; reflexivity]. Qed.

(** C1: the roster built from a table holds exactly the rows whose
    normalised first and last names are not both empty, in ascending order
    of (first_name, last_name), rows with the same names keeping the order
    they had, and its tracking ids are 100, 101, ... in that order, without
    duplicate or gap.  Both builders hand the normalised rows of the table
    to [finalize]. *)
Theorem roster_build :
  (forall out : list (string * string),
     let kept := List.filter (fun r => negb (both_empty r)) out in
     let roster := finalize out in
     Permutation (map names_of roster) kept /\
     StronglySorted (fun a b => row_leb a b = true) (map names_of roster) /\
     (forall x, List.filter (tied row_leb x) (map names_of roster)
                = List.filter (tied row_leb x) kept) /\
     length roster = length kept /\
     map tracking_id roster = map (fun k => (100 + N.of_nat k)%N) (seq 0 (length roster)) /\
     NoDup (map tracking_id roster)) /\
  (forall df first_col last_col i j,
     col_index first_col (columns df) = Some i ->
     col_index last_col (columns df) = Some j ->
     build_from_separate df first_col last_col = Ok (finalize (separate_rows df i j))) /\
  (forall df col i,
     col_index col (columns df) = Some i ->
     build_from_combined df col = Ok (finalize (combined_rows df i))).
Proof.
  split; [|split].
  - intros out kept roster.
    assert (Hkept : kept = List.filter usable out).
    { apply List.filter_ext. intros r. symmetry. apply usable_not_both_empty. }
    destruct (mergesort_spec row_leb row_leb_total row_leb_trans (List.filter usable out))
      as (Hperm & Hsorted & Hstable).
    assert (Hnames : map names_of roster = sort_values (List.filter usable out))
      by apply finalize_names.
    assert (Hids := finalize_ids out). fold roster in Hids.
    rewrite Hnames, Hkept. repeat split.
    + exact Hperm.
    + exact Hsorted.
    + exact Hstable.
    + rewrite <- (length_map names_of), Hnames. apply Permutation_length, Hperm.
    + exact Hids.
    + rewrite Hids. apply ids_from_100_NoDup.
  - intros df fc lc i j Hi Hj. unfold build_from_separate. rewrite Hi, Hj.
    unfold series, separate_rows. rewrite !map_map, combine_map_map. reflexivity.
  - intros df c i Hi. unfold build_from_combined. rewrite Hi.
    unfold series, combined_rows. rewrite !map_map, combine_map_map.
    do 2 f_equal. apply map_ext. intros r. destruct (parse_fullname _); reflexivity.
Qed.

Lemma roster_build_witness :
  build_from_separate sample_table FIRST_COL LAST_COL
  = Ok (finalize (separate_rows sample_table 0 1)) /\
  build_from_combined smith_table COMBINED_NAME_COL
  = Ok (finalize (combined_rows smith_table 0)).
Proof.
  split.
  - apply (proj1 (proj2 roster_build) sample_table FIRST_COL LAST_COL 0 1); reflexivity.
  - apply (proj2 (proj2 roster_build) smith_table COMBINED_NAME_COL 0); reflexivity.
Defined.

(** ** Import, then lookup *)

Lemma distinct_NoDup (ids : list N) : NoDup ids -> distinct ids = true.
Proof.
  induction 1 as [|i ids Hi _ IH]; simpl; [reflexivity|].
  rewrite IH, andb_true_r. apply negb_true_iff.
  destruct (existsb (N.eqb i) ids) eqn:E; [|reflexivity].
  apply existsb_exists in E as (k & Hk & Hik). apply N.eqb_eq in Hik; subst k.
  exfalso. apply Hi. apply list_elem_of_In. exact Hk.
Qed.

Lemma find_by_id {A} (key : A -> N) (l : list A) (a : A) :
  NoDup (map key l) -> a ∈ l ->
  List.find (fun r => N.eqb (key r) (key a)) l = Some a.
Proof.
  induction l as [|b l IH]; intros Hnd Ha; [inversion Ha|].
  simpl in *. apply NoDup_cons in Hnd as [Hb Hnd].
  apply elem_of_cons in Ha as [->|Ha]; [rewrite N.eqb_refl; reflexivity|].
  destruct (N.eqb_spec (key b) (key a)) as [E|_]; [|apply IH; assumption].
  exfalso. apply Hb. rewrite E. apply list_elem_of_In, in_map, list_elem_of_In, Ha.
Qed.

(** C2: once a built roster has been imported in replace mode, the lookup
    of the tracking id of any of its entries, in any session on that
    database, returns the first and last name of that entry.  The ids are
    within the integers the database stores. *)
Theorem import_then_lookup (out : list (string * string)) (imported_at : string)
    (d : database) (e : entry) :
  (100 + N.of_nat (length (finalize out)) <= sqlite_max_int + 1)%N ->
  e ∈ finalize out ->
  exists d',
    to_sqlite (finalize out) imported_at Replace d = (d', None) /\
    forall s : session,
      names (db s) = names d' ->
      fetch_name_by_tracking_id None (tracking_id e) s
      = ([], Ok (Some (first_name e, last_name e))).
Proof.
  intros Hsize He.
  pose proof (finalize_ids out) as Hids.
  assert (Hnd : NoDup (map tracking_id (finalize out)))
    by (rewrite Hids; apply ids_from_100_NoDup).
  unfold to_sqlite.
  assert (Hkeys : map nr_tracking_id (map (stamp_row imported_at) (finalize out))
                  = map tracking_id (finalize out)).
  { rewrite map_map. reflexivity. }
  rewrite Hkeys, (distinct_NoDup _ Hnd).
  eexists; split; [reflexivity|].
  intros s Hs. simpl in Hs.
  assert (Hbound : (tracking_id e <= sqlite_max_int)%N).
  { apply list_elem_of_In, (in_map tracking_id) in He. rewrite Hids in He.
    apply in_map_iff in He as (k & <- & Hk). apply in_seq in Hk. lia. }
  unfold fetch_name_by_tracking_id, bind, may_raise, ret, gets, raise. simpl.
  destruct (N.ltb_spec sqlite_max_int (tracking_id e)) as [Hlt|_]; [lia|].
  simpl. rewrite Hs. simpl.
  change (fun r => N.eqb (nr_tracking_id r) (tracking_id e))
    with (fun r => N.eqb (nr_tracking_id r) (nr_tracking_id (stamp_row imported_at e))).
  rewrite find_by_id.
  - reflexivity.
  - rewrite Hkeys. exact Hnd.
  - apply list_elem_of_In, in_map, list_elem_of_In, He.
Qed.

Lemma import_then_lookup_witness :
  exists d',
    to_sqlite (finalize (separate_rows sample_table 0 1)) "2025-08-28T12:00:00Z" Replace
      (fst empty_stores) = (d', None) /\
    forall s : session,
      names (db s) = names d' ->
      fetch_name_by_tracking_id None 101 s = ([], Ok (Some ("Amy", "Zed"))).
Proof.
  apply (import_then_lookup (separate_rows sample_table 0 1) "2025-08-28T12:00:00Z"
           (fst empty_stores)
           {| tracking_id := 101; first_name := "Amy"; last_name := "Zed" |}).
  - vm_compute. discriminate.
  - vm_compute. apply list_elem_of_In. simpl. tauto.
Defined.

(** ** Rejected scans *)

Lemma str_filter_none (p : ascii -> bool) (s : string) :
  str_any p s = false -> str_filter p s = "".
Proof.
  induction s as [|c s IH]; simpl; [reflexivity|].
  intros H. apply orb_false_iff in H as [Hc Hs]. rewrite Hc. auto.
Qed.

Lemma str_any_lstrip (p : ascii -> bool) (s : string) :
  str_any p s = false -> str_any p (lstrip s) = false.
Proof.
  induction s as [|c s IH]; simpl; [reflexivity|].
  intros H. destruct (is_space c); [|exact H].
  apply orb_false_iff in H as [_ Hs]. auto.
Qed.

Lemma str_any_rstrip (p : ascii -> bool) (s : string) :
  str_any p s = false -> str_any p (rstrip s) = false.
Proof.
  induction s as [|c s IH]; simpl; [reflexivity|].
  intros H. apply orb_false_iff in H as [Hc Hs].
  destruct (is_space c && negb (truthy (rstrip s))); simpl; [reflexivity|].
  rewrite Hc. auto.
Qed.

Lemma normalize_scan_no_digit (typed : string) :
  str_any is_digit typed = false -> normalize_scan (strip typed) = None.
Proof.
  intros H. unfold normalize_scan, strip.
  rewrite str_filter_none; [reflexivity|].
  apply str_any_rstrip, str_any_lstrip, H.
Qed.

Lemma cycle_trace_invalid (sc : scan) (s : session) :
  normalize_scan (strip (typed sc)) = None ->
  cycle_trace sc s = [set_message (msg_invalid (strip (typed sc))) s].
Proof.
  intros H. unfold cycle_trace, cycle_prog, try_except, cycle_body. rewrite H. reflexivity.
Qed.

Lemma cycle_trace_not_found (sc : scan) (s : session) (tid : N) (t : names_table) :
  normalize_scan (strip (typed sc)) = Some tid ->
  (tid <= sqlite_max_int)%N ->
  names (db s) = Some t ->
  List.find (fun r => N.eqb (nr_tracking_id r) tid) (nt_rows t) = None ->
  (forall f, failure sc = Some f -> place f <> AtLookup) ->
  cycle_trace sc s = [set_message (msg_not_found tid) s].
Proof.
  intros Hn Hmax Ht Hfind Hflt.
  unfold cycle_trace, cycle_prog, try_except, cycle_body. rewrite Hn.
  unfold fetch_name_by_tracking_id, bind, may_raise, gets, ret, raise.
  assert (Hlook : match failure sc with
                  | Some f => fault_point_eqb (place f) AtLookup
                  | None => false
                  end = false).
  { destruct (failure sc) as [f|] eqn:E; [|reflexivity].
    specialize (Hflt f eq_refl). destruct (place f); try reflexivity. contradiction. }
  destruct (failure sc) as [f|]; [rewrite Hlook|]; simpl;
    (destruct (N.ltb_spec sqlite_max_int tid) as [?|_]; [lia|]);
    simpl; rewrite Ht; simpl; rewrite Hfind; reflexivity.
Qed.

(** C6: a line without any digit gives the invalid-scan message carrying
    the text entered (blanks at its ends stripped, as the loop reads it)
    and changes nothing else: no row in the table or in a transaction, no
    file, no history entry; the same line again, at any time, leaves the
    same state.  An id the database can hold and that the roster table does
    not contain gives the not-found message, the lookup being the only
    call made: the history and the stores stay as they were. *)
Theorem rejected_scans (sc : scan) (s : session) :
  let raw := strip (typed sc) in
  (str_any is_digit (typed sc) = false ->
     let s' := cycle sc s in
     cycle_trace sc s = [set_message (msg_invalid raw) s] /\
     (current_line s', subline s') = msg_invalid raw /\
     db s' = db s /\ txn s' = txn s /\ fs s' = fs s /\ history s' = history s /\
     forall sc', typed sc' = typed sc -> cycle sc' s' = s') /\
  (forall tid t,
     normalize_scan raw = Some tid ->
     (tid <= sqlite_max_int)%N ->
     names (db s) = Some t ->
     List.find (fun r => N.eqb (nr_tracking_id r) tid) (nt_rows t) = None ->
     (forall f, failure sc = Some f -> place f <> AtLookup) ->
     let s' := cycle sc s in
     cycle_trace sc s = [set_message (msg_not_found tid) s] /\
     (current_line s', subline s') = msg_not_found tid /\
     db s' = db s /\ txn s' = txn s /\ fs s' = fs s /\ history s' = history s).
Proof.
  cbv zeta. split.
  - intros Hnd. pose proof (normalize_scan_no_digit _ Hnd) as Hn.
    unfold cycle. rewrite (cycle_trace_invalid sc s Hn). simpl.
    repeat split.
    intros sc' Hsc'. rewrite cycle_trace_invalid by (rewrite Hsc'; exact Hn).
    rewrite Hsc'. reflexivity.
  - intros tid t Hn Hmax Ht Hfind Hflt.
    unfold cycle. rewrite (cycle_trace_not_found sc s tid t Hn Hmax Ht Hfind Hflt).
    simpl. repeat split.
Qed.

Lemma rejected_scans_witness :
  cycle_trace no_digit_scan sample_session
  = [set_message (msg_invalid "abc!") sample_session] /\
  cycle_trace {| typed := "id 250"; t_insert := t_insert no_digit_scan;
                 t_append := t_append no_digit_scan; failure := None |} sample_session
  = [set_message (msg_not_found 250) sample_session].
Proof.
  split.
  - apply (proj1 (rejected_scans no_digit_scan sample_session)). reflexivity.
  - refine (proj1 (proj2 (rejected_scans _ sample_session) 250%N
                     {| nt_rows := _; nt_unique := true |} _ _ _ _ _)).
    + reflexivity.
    + vm_compute. discriminate.
    + reflexivity.
    + reflexivity.
    + discriminate.
Defined.

(** ** A recorded scan, step by step *)

Lemma cycle_trace_hit (sc : scan) (s : session) (r : scan_row) :
  recorded sc s = Some r -> scans (db s) <> None -> cycle_trace sc s = hit_trace sc s r.
Proof.
  unfold recorded, lookup. intros Hrec Hscans.
  destruct (normalize_scan (strip (typed sc))) as [tid|] eqn:Hn; [|discriminate].
  destruct (N.ltb sqlite_max_int tid) eqn:Hmax; [discriminate|].
  destruct s as [[nm [rows|]] tx f h cl sl]; simpl in *; [clear Hscans|contradiction].
  destruct nm as [t|]; [|discriminate].
  destruct (List.find _ (nt_rows t)) as [nr|] eqn:Hfind; [|discriminate].
  injection Hrec as <-.
  unfold cycle_trace, cycle_prog, try_except, cycle_body. rewrite Hn.
  unfold hit_trace, success_trace, remembered, announced, written, headed, existed,
    opened, with_dir, committed, rolled_back, inserted, failed, csv_path, month_dir,
    daily_path.
  unfold fetch_name_by_tracking_id, insert_scan, execute_insert, commit,
    append_daily_csv, get_daily_csv_path, may_raise, bind, gets, ret, raise, effect.
  destruct (failure sc) as [[[] e]|]; simpl; rewrite ?Hmax; simpl; rewrite ?Hfind; simpl;
    try reflexivity.
  all: repeat match goal with
              | |- context [bool_decide ?P] => destruct (bool_decide P)
              end; reflexivity.
Qed.

(** ** The date of a row and the date of its file *)

(** C4: a scan of "id: 104 !" taken at 23:59 on 08/28, whose file is
    resolved at 00:00 on 08/29.  The digits give id 104, one row goes to
    the table and one to a daily file, with the same id, names, time and
    date; but [append_daily_csv] reads the clock again, so the row dated
    08:28:2025 lands in the file of 08/29 and the file of 08/28 is not
    written. *)
Theorem midnight_scan_misfiled :
  let s' := cycle midnight_scan sample_session in
  normalize_scan (strip (typed midnight_scan)) = Some 104%N /\
  scans (db s')
  = Some [{| sc_tracking_id := 104; sc_first_name := "Dora"; sc_last_name := "Diaz";
             sc_time_hhmm := "23:59"; sc_date_mmddyyyy := "08:28:2025" |}] /\
  files (fs s') !! "/home/ddb/Documents/daily_list/08_2025/08_29_2025.csv"
  = Some [fieldnames; ["104"; "Dora"; "Diaz"; "23:59"; "08:28:2025"]] /\
  files (fs s') !! "/home/ddb/Documents/daily_list/08_2025/08_28_2025.csv" = None.
Proof. vm_compute. repeat split. Qed.

(** ** Paths and dates *)

Lemma app_cons (c : ascii) (s t : string) : String c s +:+ t = String c (s +:+ t).
Proof. reflexivity. Qed.

Lemma app_empty_l (t : string) : "" +:+ t = t.
Proof. reflexivity. Qed.

Lemma app_assoc_str (a b c : string) : (a +:+ b) +:+ c = a +:+ (b +:+ c).
Proof. induction a as [|x a IH]; [reflexivity|]. rewrite !app_cons, IH. reflexivity. Qed.

Lemma uint_digits (d : Decimal.uint) : str_all is_digit (NilEmpty.string_of_uint d) = true.
Proof. induction d; simpl; auto. Qed.

Lemma str_of_N_digits (n : N) : str_all is_digit (str_of_N n) = true.
Proof.
  unfold str_of_N, NilZero.string_of_uint.
  destruct (N.to_uint n) eqn:E; try (rewrite <- E; apply uint_digits). reflexivity.
Qed.

Lemma str_of_N_inj (n m : N) : str_of_N n = str_of_N m -> n = m.
Proof.
  unfold str_of_N. intros H. apply DecimalN.Unsigned.to_uint_inj.
  assert (Hnn : forall k, N.to_uint k <> Decimal.Nil).
  { intros [|p]; [discriminate | apply DecimalPos.Unsigned.to_uint_nonnil]. }
  apply (f_equal NilZero.uint_of_string) in H.
  rewrite !NilZero.usu in H by apply Hnn. congruence.
Qed.

(** A run of digits ends where the first other character stands. *)
Lemma digits_app_inj (a b r r' : string) (c c' : ascii) :
  str_all is_digit a = true -> str_all is_digit b = true ->
  is_digit c = false -> is_digit c' = false ->
  a +:+ String c r = b +:+ String c' r' -> a = b /\ String c r = String c' r'.
Proof.
  revert b; induction a as [|x a IH]; intros [|y b] Ha Hb Hc Hc' H;
    rewrite ?app_cons, ?app_empty_l in H; simpl in Ha, Hb.
  - auto.
  - injection H as -> _. apply andb_true_iff in Hb as [Hb _]. congruence.
  - injection H as -> _. apply andb_true_iff in Ha as [Ha _]. congruence.
  - injection H as -> H.
    apply andb_true_iff in Ha as [_ Ha]. apply andb_true_iff in Hb as [_ Hb].
    destruct (IH b Ha Hb Hc Hc' H) as [-> E]. auto.
Qed.

Lemma upto_99_In (n : N) : (n < 100)%N -> In n upto_99.
Proof.
  intros H. unfold upto_99. apply in_map_iff. exists (N.to_nat n).
  split; [apply N2Nat.id | apply in_seq; lia].
Qed.

Lemma padded_2_length (n : N) : (n < 100)%N -> String.length (padded 2 n) = 2.
Proof.
  intros H.
  assert (Hall : forallb (fun k => Nat.eqb (String.length (padded 2 k)) 2) upto_99 = true)
    by (vm_compute; reflexivity).
  rewrite forallb_forall in Hall. apply Nat.eqb_eq, Hall, upto_99_In, H.
Qed.

Lemma padded_2_inj (n m : N) :
  (n < 100)%N -> (m < 100)%N -> padded 2 n = padded 2 m -> n = m.
Proof.
  intros Hn Hm E.
  assert (Hall : forallb (fun a => forallb (fun b =>
                   implb (String.eqb (padded 2 a) (padded 2 b)) (N.eqb a b)) upto_99)
                   upto_99 = true) by (vm_compute; reflexivity).
  rewrite forallb_forall in Hall. specialize (Hall n (upto_99_In n Hn)).
  rewrite forallb_forall in Hall. specialize (Hall m (upto_99_In m Hm)).
  rewrite E, String.eqb_refl in Hall. apply N.eqb_eq, Hall.
Qed.

Lemma padded_2_shape (n : N) :
  (n < 100)%N -> exists a b, padded 2 n = String a (String b "").
Proof.
  intros H. pose proof (padded_2_length n H) as L.
  destruct (padded 2 n) as [|a [|b [|c r]]]; try discriminate. eauto.
Qed.

Lemma valid_month_day (t : datetime) :
  valid_datetime t -> (month t < 100)%N /\ (day t < 100)%N.
Proof. unfold valid_datetime. lia. Qed.

Lemma daily_path_same_day (base : string) (t t' : datetime) :
  same_day t t' -> daily_path base t = daily_path base t'.
Proof.
  intros (Hy & Hm & Hd).
  unfold daily_path, strftime_month_folder, strftime_filename. rewrite Hy, Hm, Hd.
  reflexivity.
Qed.

Lemma daily_path_inj (base : string) (t t' : datetime) :
  valid_datetime t -> valid_datetime t' ->
  daily_path base t = daily_path base t' -> same_day t t'.
Proof.
  intros Hv Hv' H.
  apply valid_month_day in Hv as [Hm Hd]. apply valid_month_day in Hv' as [Hm' Hd'].
  unfold daily_path, path_join, strftime_month_folder, strftime_filename in H.
  rewrite !app_assoc_str in H. apply String.app_inj in H.
  pose proof (padded_2_inj _ _ Hm Hm') as Im.
  pose proof (padded_2_inj _ _ Hd Hd') as Id.
  destruct (padded_2_shape _ Hm) as (a & b & Em), (padded_2_shape _ Hm') as (a' & b' & Em').
  destruct (padded_2_shape _ Hd) as (c & d & Ed), (padded_2_shape _ Hd') as (c' & d' & Ed').
  rewrite Em, Em', Ed, Ed' in *.
  rewrite !app_cons, !app_empty_l in H.
  injection H as -> -> H.
  apply digits_app_inj in H as [Hy H]; try apply str_of_N_digits; try reflexivity.
  injection H as H. apply str_of_N_inj in Hy.
  repeat split; auto.
  apply Id. congruence.
Qed.

(** ** The daily files *)

(** One call of [append_daily_csv] that does not fail: the month directory
    is there afterwards, the file has gained its header if it was not there
    and then the row, and the call returns the path. *)
Lemma append_daily_csv_ok (base_dir : string) (row : scan_row) (now : datetime)
    (s : session) :
  let p := daily_path base_dir now in
  exists tr,
    append_daily_csv None base_dir row now s = (tr, Ok p) /\
    let s' := List.last tr s in
    dirs (fs s') = {[ base_dir; path_join base_dir (strftime_month_folder now) ]}
                     ∪ dirs (fs s) /\
    files (fs s')
    = <[ p := recs (fs s) p ++ header_if_new (fs s) p ++ [cells row] ]> (files (fs s)) /\
    db s' = db s /\ txn s' = txn s /\ history s' = history s.
Proof.
  cbv zeta.
  unfold append_daily_csv, get_daily_csv_path, may_raise, bind, gets, ret, raise, effect,
    header_if_new, recs, daily_path.
  simpl.
  destruct (bool_decide (is_Some (files (fs s) !! _))) eqn:E; simpl;
    eexists; (split; [reflexivity|]); simpl; repeat split;
    rewrite ?lookup_insert_eq; simpl;
    rewrite ?insert_insert_eq, ?app_nil_r, <- ?List.app_assoc; reflexivity.
Qed.

(** ** Every state of a cycle *)

(** A scan that records nothing only changes the message. *)
Lemma cycle_trace_miss (sc : scan) (s : session) :
  recorded sc s = None ->
  exists m, cycle_trace sc s = [set_message m s] /\ rejection m.
Proof.
  unfold recorded, lookup, cycle_trace, cycle_prog, try_except, cycle_body.
  destruct (normalize_scan (strip (typed sc))) as [tid|]; [|intros _; rejected].
  unfold fetch_name_by_tracking_id, may_raise, bind, gets, ret, raise, effect.
  intros Hrec.
  destruct (failure sc) as [[[] e]|]; simpl; try rejected;
    destruct (N.ltb sqlite_max_int tid); simpl; try rejected;
    destruct (names (db s)) as [t|]; simpl; try rejected;
    destruct (List.find _ (nt_rows t)) as [nr|]; simpl; try rejected; discriminate.
Qed.

(** Nor does a scan made when the [scans] table is missing. *)
Lemma cycle_trace_no_table (sc : scan) (s : session) :
  scans (db s) = None ->
  exists m, cycle_trace sc s = [set_message m s] /\ rejection m.
Proof.
  intros Hnone.
  destruct (recorded sc s) as [r|] eqn:Hrec; [|apply cycle_trace_miss, Hrec].
  revert Hrec.
  unfold recorded, lookup, cycle_trace, cycle_prog, try_except, cycle_body.
  destruct (normalize_scan (strip (typed sc))) as [tid|]; [|discriminate].
  unfold fetch_name_by_tracking_id, insert_scan, execute_insert, may_raise, bind, gets,
    ret, raise, effect.
  destruct (N.ltb sqlite_max_int tid) eqn:Hmax; [discriminate|].
  destruct (names (db s)) as [t|] eqn:Ht; [|discriminate].
  destruct (List.find _ (nt_rows t)) as [nr|] eqn:Hfind; [|discriminate].
  intros _.
  destruct (failure sc) as [[[] e]|]; simpl; rewrite ?Hmax; simpl; rewrite ?Ht; simpl;
    rewrite ?Hfind; simpl; rewrite ?Hnone; simpl; rejected.
Qed.

Lemma files_opened (sc : scan) (s : session) (r : scan_row) :
  files (fs (opened sc s r))
  = <[ csv_path sc := recs (fs s) (csv_path sc) ]> (files (fs s)).
Proof. reflexivity. Qed.

Lemma files_headed (sc : scan) (s : session) (r : scan_row) :
  files (fs (headed sc s r))
  = <[ csv_path sc := recs (fs s) (csv_path sc) ++ header_if_new (fs s) (csv_path sc) ]>
      (files (fs s)).
Proof.
  unfold headed, header_if_new, existed.
  destruct (bool_decide (is_Some (files (fs s) !! csv_path sc))).
  - rewrite app_nil_r. reflexivity.
  - simpl. rewrite lookup_insert_eq, insert_insert_eq. reflexivity.
Qed.

Lemma files_written (sc : scan) (s : session) (r : scan_row) :
  files (fs (written sc s r))
  = <[ csv_path sc := recs (fs s) (csv_path sc) ++ header_if_new (fs s) (csv_path sc)
                        ++ [cells r] ]> (files (fs s)).
Proof.
  unfold written. simpl. rewrite files_headed, lookup_insert_eq, insert_insert_eq.
  simpl. rewrite <- List.app_assoc. reflexivity.
Qed.

Lemma trace_states (sc : scan) (s s' : session) :
  s' ∈ cycle_trace sc s ->
  names (db s') = names (db s) /\
  (before_commit s s' \/
   exists r, recorded sc s = Some r /\ scans (db s) <> None /\ after_commit sc s r s').
Proof.
  intros Hin.
  destruct (recorded sc s) as [r|] eqn:Hrec.
  2: { destruct (cycle_trace_miss sc s Hrec) as (m & Hm & _). rewrite Hm in Hin.
       apply list_elem_of_singleton in Hin as ->. split; [reflexivity|]. left. repeat split. }
  destruct (scans (db s)) as [rows|] eqn:Hrows.
  2: { destruct (cycle_trace_no_table sc s Hrows) as (m & Hm & _). rewrite Hm in Hin.
       apply list_elem_of_singleton in Hin as ->. split; [reflexivity|].
       left. repeat split. }
  rewrite (cycle_trace_hit sc s r Hrec) in Hin by (rewrite Hrows; discriminate).
  assert (Hbefore : forall x, names (db x) = names (db s) -> scans (db x) = scans (db s) ->
            fs x = fs s -> history x = history s ->
            names (db x) = names (db s) /\
            (before_commit s x \/
             exists r0, Some r = Some r0 /\ Some rows <> None /\ after_commit sc s r0 x)).
  { intros x H1 H2 H3 H4. split; [exact H1|]. left. repeat split; assumption. }
  assert (Hafter : forall x, names (db x) = names (db s) -> after_commit sc s r x ->
            names (db x) = names (db s) /\
            (before_commit s x \/
             exists r0, Some r = Some r0 /\ Some rows <> None /\ after_commit sc s r0 x)).
  { intros x H1 H2. split; [exact H1|]. right. exists r.
    split; [reflexivity|]. split; [discriminate|exact H2]. }
  assert (Hk1 : [] `prefix_of` header_if_new (fs s) (csv_path sc) ++ [cells r])
    by apply prefix_nil.
  assert (Hk2 : header_if_new (fs s) (csv_path sc)
                  `prefix_of` header_if_new (fs s) (csv_path sc) ++ [cells r])
    by apply prefix_app_r, reflexivity.
  assert (A2 : after_commit sc s r (committed s r)).
  { unfold after_commit. simpl. rewrite Hrows. repeat split; auto. }
  assert (A3 : after_commit sc s r (with_dir sc s r)).
  { unfold after_commit. simpl. rewrite Hrows. repeat split; auto. }
  assert (A4 : after_commit sc s r (opened sc s r)).
  { unfold after_commit. rewrite files_opened. simpl. rewrite Hrows. repeat split; auto.
    right. exists []. rewrite app_nil_r. auto. }
  assert (A5 : after_commit sc s r (headed sc s r)).
  { split; [|split; [|split]].
    - unfold headed. destruct (existed sc s); reflexivity.
    - unfold headed. destruct (existed sc s); reflexivity.
    - right. exists (header_if_new (fs s) (csv_path sc)). split; [exact Hk2|].
      apply files_headed.
    - left. unfold headed. destruct (existed sc s); reflexivity. }
  assert (A6 : after_commit sc s r (written sc s r)).
  { split; [|split; [|split]].
    - unfold written, headed. destruct (existed sc s); reflexivity.
    - unfold written, headed. destruct (existed sc s); reflexivity.
    - right. exists (header_if_new (fs s) (csv_path sc) ++ [cells r]).
      split; [reflexivity|]. apply files_written.
    - left. unfold written, headed. destruct (existed sc s); reflexivity. }
  assert (A7 : after_commit sc s r (announced sc s r)).
  { destruct A6 as (H1 & H2 & H3 & _). split; [exact H1|]. split; [exact H2|].
    split; [exact H3|]. left.
    unfold announced, written, headed. destruct (existed sc s); reflexivity. }
  assert (A8 : after_commit sc s r (remembered sc s r)).
  { destruct A6 as (H1 & H2 & H3 & _). split; [exact H1|]. split; [exact H2|].
    split; [exact H3|]. right. reflexivity. }
  assert (Herr : forall e x, after_commit sc s r x -> history x = history s ->
            after_commit sc s r (failed e x)).
  { intros e x (H1 & H2 & H3 & _) Hh. split; [exact H1|]. split; [exact H2|].
    split; [exact H3|]. left. exact Hh. }
  assert (Hsucc : forall x, x ∈ success_trace sc s r ->
            names (db x) = names (db s) /\
            (before_commit s x \/
             exists r0, Some r = Some r0 /\ Some rows <> None /\ after_commit sc s r0 x)).
  { unfold success_trace. intros x Hx. destruct (existed sc s) eqn:Eex; simpl in Hx;
      repeat (apply elem_of_cons in Hx as [->|Hx];
              [first [ apply Hbefore; reflexivity
                     | apply Hafter; [same_names | assumption] ]|]);
      inversion Hx. }
  unfold hit_trace in Hin.
  destruct (failure sc) as [[pl e]|]; [|apply Hsucc, Hin].
  destruct pl; simpl in Hin;
    try (destruct (existed sc s) eqn:Eex; simpl in Hin);
    try (apply Hsucc, Hin);
    repeat (apply elem_of_cons in Hin as [->|Hin];
            [first [ apply Hbefore; reflexivity
                   | apply Hafter;
                     [same_names
                     | first [assumption | apply Herr; [assumption | same_history]]] ]|]);
    inversion Hin.
Qed.

(** ** The states an execution reaches *)

Lemma last_elem_of {A} (l : list A) (d : A) : l <> [] -> List.last l d ∈ l.
Proof.
  induction l as [|a [|b l] IH]; intros H; [contradiction| |].
  - simpl. apply elem_of_cons. auto.
  - apply elem_of_cons. right. apply IH. discriminate.
Qed.

Lemma cycle_trace_nonempty (sc : scan) (s : session) : cycle_trace sc s <> [].
Proof.
  destruct (recorded sc s) as [r|] eqn:Hrec.
  2: { destruct (cycle_trace_miss sc s Hrec) as (m & -> & _). discriminate. }
  destruct (scans (db s)) as [rows|] eqn:Hrows.
  2: { destruct (cycle_trace_no_table sc s Hrows) as (m & -> & _). discriminate. }
  rewrite (cycle_trace_hit sc s r Hrec) by (rewrite Hrows; discriminate).
  unfold hit_trace, success_trace.
  destruct (failure sc) as [[[] e]|]; try discriminate;
    destruct (existed sc s); discriminate.
Qed.

Lemma cycle_in_trace (sc : scan) (s : session) : cycle sc s ∈ cycle_trace sc s.
Proof. apply last_elem_of, cycle_trace_nonempty. Qed.

Lemma loop_reachable (inputs : list (option scan)) (s0 s : session) :
  reachable s0 s -> reachable s0 (loop inputs s).
Proof.
  revert s; induction inputs as [|[sc|] inputs IH]; intros s H; simpl; auto.
  apply IH. constructor. exact H.
Qed.

Lemma recs_insert (f : filesystem) (m : gmap string (list (list string)))
    (p q : string) (c : list (list string)) :
  files f = <[ p := c ]> m ->
  recs f q = if decide (p = q) then c else default [] (m !! q).
Proof. intros H. unfold recs. rewrite H, lookup_insert. destruct (decide (p = q)); reflexivity. Qed.

Lemma header_if_new_elem (f : filesystem) (p : string) (rec : list string) :
  rec ∈ header_if_new f p -> rec = fieldnames.
Proof.
  unfold header_if_new. destruct (bool_decide _); intros H; [inversion H|].
  apply list_elem_of_singleton in H. exact H.
Qed.

(** Inside a cycle the files only grow, and what they gain is the header
    or the row of the event of the cycle. *)
Lemma after_commit_recs (sc : scan) (s s' : session) (r : scan_row) :
  after_commit sc s r s' ->
  forall p rec,
    (rec ∈ recs (fs s) p -> rec ∈ recs (fs s') p) /\
    (rec ∈ recs (fs s') p ->
     rec ∈ recs (fs s) p \/ rec = fieldnames \/ rec = cells r).
Proof.
  intros (_ & _ & [Hf | (k & Hk & Hf)] & _) p rec.
  - unfold recs. rewrite Hf. auto.
  - rewrite (recs_insert (fs s') _ _ p _ Hf). fold (recs (fs s) p).
    destruct (decide (csv_path sc = p)) as [<-|_]; [|auto].
    split; intros H.
    + apply elem_of_app. auto.
    + apply elem_of_app in H as [H|H]; [auto|]. right.
      destruct Hk as [k' Hk].
      assert (Hin : rec ∈ header_if_new (fs s) (csv_path sc) ++ [cells r])
        by (rewrite Hk; apply elem_of_app; auto).
      apply elem_of_app in Hin as [Hin|Hin].
      * left. eapply header_if_new_elem, Hin.
      * right. apply list_elem_of_singleton in Hin. exact Hin.
Qed.

Lemma after_commit_scans (sc : scan) (s s' : session) (r r0 : scan_row) :
  after_commit sc s r s' ->
  (r0 ∈ default [] (scans (db s)) -> r0 ∈ default [] (scans (db s'))) /\
  r ∈ default [] (scans (db s')).
Proof.
  intros (Hs & _). rewrite Hs. simpl. split.
  - intros H. apply elem_of_app. auto.
  - rewrite !elem_of_app. right. right. apply list_elem_of_singleton. reflexivity.
Qed.

Lemma csv_backed_step (s0 : session) (sc : scan) (s s' : session) :
  csv_backed s0 s -> s' ∈ cycle_trace sc s -> csv_backed s0 s'.
Proof.
  intros Hinv Hin p rec Hrec.
  destruct (trace_states sc s s' Hin) as (_ & [(Hs & Hf & _) | (r & _ & _ & Hafter)]).
  - rewrite Hf in Hrec. rewrite Hs. apply Hinv, Hrec.
  - destruct (after_commit_recs sc s s' r Hafter p rec) as [_ Hnew].
    destruct (Hnew Hrec) as [Hold | [-> | ->]]; auto.
    + destruct (Hinv p rec Hold) as [H | [H | (r0 & Hr0 & H)]]; auto.
      right. right. exists r0. split; [|exact H].
      apply (after_commit_scans sc s s' r r0 Hafter), Hr0.
    + right. right. exists r. split; [|reflexivity].
      apply (after_commit_scans sc s s' r r Hafter).
Qed.

Lemma csv_backed_reachable (s0 s : session) : reachable s0 s -> csv_backed s0 s.
Proof.
  induction 1 as [|sc s _ IH].
  - intros p rec H. auto.
  - eapply csv_backed_step; [exact IH | apply cycle_in_trace].
Qed.

(** C3: in every state a cycle goes through, whatever fails and wherever,
    either the file system is as the cycle found it, or the row of the
    event is already in the committed [scans] table and the files hold
    nothing new but the header and the row of that event.  Hence in every
    state an execution reaches, between cycles or inside one, each record
    of a file was there at the start, or is a header, or is the row of an
    event the committed table holds. *)
Theorem table_before_file :
  (forall sc s s',
     s' ∈ cycle_trace sc s ->
     fs s' = fs s \/
     exists r,
       recorded sc s = Some r /\
       scans (db s') = Some (default [] (scans (db s)) ++ txn s ++ [r]) /\
       forall p rec, rec ∈ recs (fs s') p ->
         rec ∈ recs (fs s) p \/ rec = fieldnames \/ rec = cells r) /\
  (forall s0 s,
     visited s0 s ->
     forall p rec, rec ∈ recs (fs s) p ->
       rec ∈ recs (fs s0) p \/ rec = fieldnames \/
       exists r, r ∈ default [] (scans (db s)) /\ rec = cells r).
Proof.
  split.
  - intros sc s s' Hin.
    destruct (trace_states sc s s' Hin) as (_ & [(_ & Hf & _) | (r & Hrec & _ & Hafter)]);
      [left; exact Hf|].
    right. exists r. split; [exact Hrec|]. split; [apply Hafter|].
    intros p rec. apply (after_commit_recs sc s s' r Hafter).
  - intros s0 s [Hr | (sc & s1 & Hr & Hin)].
    + apply csv_backed_reachable, Hr.
    + eapply csv_backed_step; [apply csv_backed_reachable, Hr | exact Hin].
Qed.

Lemma table_before_file_witness :
  let s' := cycle failing_scan sample_session in
  (fs s' = fs sample_session \/
   exists r,
     recorded failing_scan sample_session = Some r /\
     scans (db s')
     = Some (default [] (scans (db sample_session)) ++ txn sample_session ++ [r]) /\
     forall p rec, rec ∈ recs (fs s') p ->
       rec ∈ recs (fs sample_session) p \/ rec = fieldnames \/ rec = cells r) /\
  (forall p rec, rec ∈ recs (fs s') p ->
     rec ∈ recs (fs sample_session) p \/ rec = fieldnames \/
     exists r, r ∈ default [] (scans (db s')) /\ rec = cells r).
Proof.
  split.
  - apply (proj1 table_before_file failing_scan sample_session).
    vm_compute. apply list_elem_of_In. simpl. tauto.
  - apply (proj2 table_before_file sample_session).
    left. apply (reach_cycle sample_session failing_scan sample_session), reach_start.
Defined.

(** ** The rolling history *)

Lemma rejection_not_success (m : string * string) (tid : N)
    (first last hhmm mdy path : string) :
  rejection m -> fst m <> fst (msg_success tid first last hhmm mdy path).
Proof.
  intros [[raw ->] | [[t ->] | [e ->]]] H;
    apply (f_equal (String.get 6)) in H; vm_compute in H; discriminate H.
Qed.

(** How a cycle ends: with a message of rejection or of error and the
    history as it was, or in the last state of a recorded scan. *)
Lemma cycle_outcome (sc : scan) (s : session) :
  (exists m, rejection m /\ (current_line (cycle sc s), subline (cycle sc s)) = m /\
             history (cycle sc s) = history s) \/
  (exists r, recorded sc s = Some r /\ scans (db s) <> None /\
             cycle sc s = remembered sc s r).
Proof.
  unfold cycle.
  destruct (recorded sc s) as [r|] eqn:Hrec.
  2: { destruct (cycle_trace_miss sc s Hrec) as (m & -> & Hm). left. exists m.
       destruct m. auto. }
  destruct (scans (db s)) as [rows|] eqn:Hrows.
  2: { destruct (cycle_trace_no_table sc s Hrows) as (m & -> & Hm). left. exists m.
       destruct m. auto. }
  rewrite (cycle_trace_hit sc s r Hrec) by (rewrite Hrows; discriminate).
  assert (Hok : List.last (success_trace sc s r) s = remembered sc s r).
  { unfold success_trace. destruct (existed sc s); reflexivity. }
  assert (Herr : forall e x, history x = history s ->
            exists m, rejection m /\
              (current_line (failed e x), subline (failed e x)) = m /\
              history (failed e x) = history s).
  { intros e x Hx. exists (msg_error e). split; [|split; [reflexivity | exact Hx]].
    right. right. eauto. }
  unfold hit_trace.
  destruct (failure sc) as [[pl e]|]; cbn [place what].
  2: { right. exists r. rewrite Hok. split; [reflexivity|]. split; [discriminate|reflexivity]. }
  destruct pl.
  1-6: left; apply Herr; reflexivity.
  - destruct (existed sc s) eqn:Eex.
    + right. exists r. rewrite Hok.
      split; [reflexivity|]. split; [discriminate|reflexivity].
    + left. apply Herr. reflexivity.
  - left. destruct (existed sc s) eqn:Eex; simpl; apply Herr;
      unfold headed; rewrite Eex; reflexivity.
Qed.

Lemma remembered_written (sc : scan) (s : session) (r : scan_row) :
  cells r ∈ recs (fs (remembered sc s r)) (csv_path sc).
Proof.
  change (fs (remembered sc s r)) with (fs (written sc s r)).
  rewrite (recs_insert _ _ _ (csv_path sc) _ (files_written sc s r)).
  destruct (decide (csv_path sc = csv_path sc)) as [_|N]; [|contradiction].
  rewrite !elem_of_app. right. right. apply list_elem_of_singleton. reflexivity.
Qed.

Lemma remembered_scans (sc : scan) (s : session) (r : scan_row) :
  scans (db (remembered sc s r)) = Some (default [] (scans (db s)) ++ txn s ++ [r]).
Proof. unfold remembered, announced, written, headed. destruct (existed sc s); reflexivity. Qed.

Lemma history_sound_step (sc : scan) (s s' : session) :
  history_sound s -> s' ∈ cycle_trace sc s -> history_sound s'.
Proof.
  intros [Hlen Hinv] Hin.
  destruct (trace_states sc s s' Hin) as (_ & [(Hs & Hf & Hh) | (r & _ & _ & Hafter)]).
  - unfold history_sound. rewrite Hh, Hs, Hf. auto.
  - assert (Hold : forall e, e ∈ history s ->
              e ∈ default [] (scans (db s')) /\ exists p, cells e ∈ recs (fs s') p).
    { intros e He. destruct (Hinv e He) as (H1 & p & H2). split.
      - apply (after_commit_scans sc s s' r e Hafter), H1.
      - exists p. apply (after_commit_recs sc s s' r Hafter), H2. }
    pose proof Hafter as (_ & _ & _ & [Hh | ->]).
    + unfold history_sound. rewrite Hh. auto.
    + split.
      * simpl. unfold appendleft. rewrite length_firstn. lia.
      * intros e He. simpl in He. unfold appendleft in He.
        apply (subseteq_take 3) in He.
        apply elem_of_cons in He as [-> | He]; [|apply Hold, He].
        split; [apply (after_commit_scans sc s _ r r Hafter)|].
        exists (csv_path sc). apply remembered_written.
Qed.

Lemma history_sound_reachable (d : database) (f : filesystem) (s : session) :
  reachable (start d f) s -> history_sound s.
Proof.
  induction 1 as [|sc s _ IH].
  - split; [simpl; lia|]. intros e He. inversion He.
  - eapply history_sound_step; [exact IH | apply cycle_in_trace].
Qed.

(** C10: in every state reached from the start of a session, between
    cycles or inside one, the history has at most 3 entries and each of
    them is a row of the committed [scans] table and a record of a file.
    A cycle leaves the history as it was, or puts the event of its scan in
    front and keeps the first three, and then the row is committed and is
    the last record of its daily file; a cycle that ends on a success
    message is of the second kind.  When [append_daily_csv] raises, the
    row is in the table, the history is as it was and the message reports
    the error. *)
Theorem history_is_recorded :
  (forall d f s,
     visited (start d f) s ->
     length (history s) <= 3 /\
     forall e, e ∈ history s ->
       e ∈ default [] (scans (db s)) /\ exists p, cells e ∈ recs (fs s) p) /\
  (forall sc s,
     let s' := cycle sc s in
     (history s' = history s /\
      forall tid first last hhmm mdy path,
        current_line s' <> fst (msg_success tid first last hhmm mdy path)) \/
     exists r,
       recorded sc s = Some r /\
       history s' = firstn 3 (r :: history s) /\
       (current_line s', subline s')
       = msg_success (sc_tracking_id r) (sc_first_name r) (sc_last_name r)
           (sc_time_hhmm r) (sc_date_mmddyyyy r) (csv_path sc) /\
       scans (db s') = Some (default [] (scans (db s)) ++ txn s ++ [r]) /\
       files (fs s') !! csv_path sc
       = Some (recs (fs s) (csv_path sc) ++ header_if_new (fs s) (csv_path sc)
                 ++ [cells r])) /\
  (forall sc s r f,
     recorded sc s = Some r -> scans (db s) <> None -> fails_in_append sc s f ->
     let s' := cycle sc s in
     scans (db s') = Some (default [] (scans (db s)) ++ txn s ++ [r]) /\
     history s' = history s /\
     (current_line s', subline s') = msg_error (what f)).
Proof.
  split; [|split].
  - intros d f s [Hr | (sc & s1 & Hr & Hin)].
    + apply history_sound_reachable in Hr. exact Hr.
    + apply history_sound_reachable in Hr.
      apply (history_sound_step sc s1 s Hr Hin).
  - intros sc s. cbv zeta.
    destruct (cycle_outcome sc s) as [(m & Hm & Hmsg & Hh) | (r & Hrec & Hscans & ->)].
    + left. split; [exact Hh|]. intros tid first last hhmm mdy path Heq.
      apply (rejection_not_success m tid first last hhmm mdy path Hm).
      rewrite <- Hmsg. exact Heq.
    + right. exists r. split; [exact Hrec|]. split; [reflexivity|].
      split; [reflexivity|]. split; [apply remembered_scans|].
      change (files (fs (remembered sc s r))) with (files (fs (written sc s r))).
      rewrite files_written. apply lookup_insert_eq.
  - intros sc s r f Hrec Hscans (Hf & Hplace). cbv zeta. unfold cycle.
    rewrite (cycle_trace_hit sc s r Hrec Hscans). unfold hit_trace. rewrite Hf.
    destruct Hplace as [-> | [-> | [-> | [-> Hnew]]]]; simpl.
    + repeat split.
    + repeat split.
    + destruct (existed sc s) eqn:Eex; simpl; unfold headed; rewrite Eex; repeat split.
    + unfold existed. rewrite Hnew. simpl. repeat split.
Qed.

Lemma history_is_recorded_witness :
  let s' := cycle failing_scan sample_session in
  (length (history s') <= 3 /\
   forall e, e ∈ history s' ->
     e ∈ default [] (scans (db s')) /\ exists p, cells e ∈ recs (fs s') p) /\
  (scans (db s')
   = Some (default [] (scans (db sample_session)) ++ txn sample_session
           ++ [{| sc_tracking_id := 102; sc_first_name := "Bob"; sc_last_name := "Stone";
                  sc_time_hhmm := "09:05"; sc_date_mmddyyyy := "08:28:2025" |}]) /\
   history s' = history sample_session /\
   (current_line s', subline s') = msg_error (what bad_disk)).
Proof.
  split.
  - apply (proj1 history_is_recorded sample_db (snd empty_stores)).
    left. apply (reach_cycle _ failing_scan), reach_start.
  - apply (proj2 (proj2 history_is_recorded) failing_scan sample_session _ bad_disk).
    + reflexivity.
    + discriminate.
    + split; [reflexivity|]. right. right. left. reflexivity.
Defined.

(** ** Sequences of recorded scans *)

Lemma cycle_success (sc : scan) (s : session) (r : scan_row) :
  failure sc = None -> recorded sc s = Some r -> scans (db s) <> None ->
  cycle sc s = remembered sc s r.
Proof.
  intros Hf Hrec Hscans. unfold cycle.
  rewrite (cycle_trace_hit sc s r Hrec Hscans). unfold hit_trace, success_trace.
  rewrite Hf. destruct (existed sc s); reflexivity.
Qed.

Lemma recorded_names (sc : scan) (s s1 : session) :
  names (db s1) = names (db s) -> recorded sc s1 = recorded sc s.
Proof. intros H. unfold recorded, lookup. rewrite H. reflexivity. Qed.

Lemma remembered_names (sc : scan) (s : session) (r : scan_row) :
  names (db (remembered sc s r)) = names (db s).
Proof. unfold remembered, announced, written, headed. destruct (existed sc s); reflexivity. Qed.

Lemma remembered_dirs (sc : scan) (s : session) (r : scan_row) :
  dirs (fs (remembered sc s r)) = {[ OUTPUT_DIR; month_dir sc ]} ∪ dirs (fs s).
Proof. unfold remembered, announced, written, headed. destruct (existed sc s); reflexivity. Qed.

Lemma hits_cons (p : string) (sc : scan) (scs : list scan) :
  hits p (sc :: scs) = String.eqb (csv_path sc) p || hits p scs.
Proof. reflexivity. Qed.

Lemma rows_into_cons (p : string) (s : session) (sc : scan) (scs : list scan) :
  rows_into p s (sc :: scs)
  = (if String.eqb (csv_path sc) p
     then match recorded sc s with Some r => [cells r] | None => [] end
     else []) ++ rows_into p s scs.
Proof. reflexivity. Qed.

Lemma rows_into_names (p : string) (s s1 : session) (scs : list scan) :
  names (db s1) = names (db s) -> rows_into p s1 scs = rows_into p s scs.
Proof.
  intros H. unfold rows_into. apply flat_map_ext. intros sc.
  rewrite (recorded_names sc s s1 H). reflexivity.
Qed.

Lemma rows_into_no_hit (p : string) (s : session) (scs : list scan) :
  hits p scs = false -> rows_into p s scs = [].
Proof.
  induction scs as [|sc scs IH]; [reflexivity|].
  rewrite hits_cons, rows_into_cons.
  intros H. apply orb_false_iff in H as [H1 H2]. rewrite H1. apply IH, H2.
Qed.

Lemma loop_recorded (scs : list scan) (s : session) :
  scans (db s) <> None ->
  (forall sc, sc ∈ scs -> failure sc = None /\ recorded sc s <> None) ->
  let s' := loop (map Some scs) s in
  (forall sc, sc ∈ scs -> month_dir sc ∈ dirs (fs s')) /\
  (dirs (fs s) ⊆ dirs (fs s')) /\
  forall p,
    files (fs s') !! p
    = if hits p scs
      then Some (recs (fs s) p ++ header_if_new (fs s) p ++ rows_into p s scs)
      else files (fs s) !! p.
Proof.
  revert s; induction scs as [|sc scs IH]; intros s Hscans Hall; cbv zeta.
  - simpl. split; [intros sc H; inversion H|]. split; [reflexivity|]. reflexivity.
  - destruct (Hall sc) as [Hf Hrec]; [apply elem_of_cons; auto|].
    destruct (recorded sc s) as [r|] eqn:Er; [clear Hrec|contradiction].
    simpl loop. rewrite (cycle_success sc s r Hf Er Hscans).
    set (s1 := remembered sc s r).
    assert (Hn1 : names (db s1) = names (db s)) by apply remembered_names.
    destruct (IH s1) as (Hd & Hsub & Hfiles).
    { unfold s1. rewrite remembered_scans. discriminate. }
    { intros sc' Hsc'. rewrite (recorded_names sc' s s1 Hn1).
      apply Hall, elem_of_cons. auto. }
    split; [|split].
    + intros sc' Hsc'. apply elem_of_cons in Hsc' as [->|Hsc']; [|apply Hd, Hsc'].
      apply Hsub. unfold s1. rewrite remembered_dirs.
      apply elem_of_union. left. apply elem_of_union. right.
      apply elem_of_singleton. reflexivity.
    + etransitivity; [|exact Hsub]. unfold s1. rewrite remembered_dirs.
      apply union_subseteq_r.
    + intros p. rewrite Hfiles, (rows_into_names p s s1 _ Hn1).
      assert (Hw : files (fs s1) = _) by apply (files_written sc s r).
      unfold header_if_new at 1. rewrite (recs_insert _ _ _ p _ Hw), Hw, lookup_insert.
      rewrite hits_cons, rows_into_cons, Er.
      destruct (String.eqb_spec (csv_path sc) p) as [E|N].
      * destruct (decide (csv_path sc = p)) as [_|N]; [|contradiction]. subst p.
        rewrite bool_decide_eq_true_2 by eauto. rewrite orb_true_l.
        fold (recs (fs s) (csv_path sc)).
        destruct (hits (csv_path sc) scs) eqn:Eh.
        -- rewrite app_nil_l, <- !List.app_assoc. reflexivity.
        -- rewrite (rows_into_no_hit _ _ _ Eh). reflexivity.
      * destruct (decide (csv_path sc = p)) as [E|_]; [contradiction|].
        rewrite orb_false_l, app_nil_l. reflexivity.
Qed.

(** C5: two scans whose rows carry the same date, 08:28:2025, the second
    taken at 23:59 with its file resolved at 00:00 of the next day.  Both
    rows are committed, but they do not share a file: the first is in the
    file of 08/28 and the second in the file of 08/29, each under a header
    of its own.  The file is named from the clock as [append_daily_csv]
    reads it, not from the date of the row. *)
Theorem same_date_rows_in_two_files :
  let s' := loop (map Some [noon_scan; midnight_scan]) sample_session in
  scans (db s')
  = Some [{| sc_tracking_id := 103; sc_first_name := "Carl"; sc_last_name := "Young";
             sc_time_hhmm := "12:30"; sc_date_mmddyyyy := "08:28:2025" |};
          {| sc_tracking_id := 104; sc_first_name := "Dora"; sc_last_name := "Diaz";
             sc_time_hhmm := "23:59"; sc_date_mmddyyyy := "08:28:2025" |}] /\
  files (fs s') !! "/home/ddb/Documents/daily_list/08_2025/08_28_2025.csv"
  = Some [fieldnames; ["103"; "Carl"; "Young"; "12:30"; "08:28:2025"]] /\
  files (fs s') !! "/home/ddb/Documents/daily_list/08_2025/08_29_2025.csv"
  = Some [fieldnames; ["104"; "Dora"; "Diaz"; "23:59"; "08:28:2025"]].
Proof. vm_compute. repeat split. Qed.

(** X21: [append_daily_csv], when nothing fails, makes sure the month
    directory is there and appends to [<root>/<MM_YYYY>/<MM_DD_YYYY>.csv],
    named from the date it reads itself, the header if and only if the
    file was not there and then the row.  After a sequence of recorded scans every
    file written holds what it held, then the header if it was not there
    before, then one row per scan resolved to it, in order; the other
    files are untouched.  Two readings of the clock name the same file
    exactly when they are on the same date. *)
Theorem daily_files :
  (forall base_dir row now s,
     let p := daily_path base_dir now in
     p = path_join (path_join base_dir
                      (padded 2 (month now) +:+ "_" +:+ str_of_N (year now)))
           (padded 2 (month now) +:+ "_" +:+ padded 2 (day now) +:+ "_"
              +:+ str_of_N (year now) +:+ ".csv") /\
     exists tr,
       append_daily_csv None base_dir row now s = (tr, Ok p) /\
       let s' := List.last tr s in
       dirs (fs s') = {[ base_dir; path_join base_dir (strftime_month_folder now) ]}
                        ∪ dirs (fs s) /\
       files (fs s')
       = <[ p := recs (fs s) p
                 ++ (if bool_decide (is_Some (files (fs s) !! p)) then [] else [fieldnames])
                 ++ [cells row] ]> (files (fs s))) /\
  (forall scs s,
     scans (db s) <> None ->
     (forall sc, sc ∈ scs -> failure sc = None /\ recorded sc s <> None) ->
     let s' := loop (map Some scs) s in
     (forall sc, sc ∈ scs ->
        path_join OUTPUT_DIR (strftime_month_folder (t_append sc)) ∈ dirs (fs s')) /\
     forall p,
       files (fs s') !! p
       = if existsb (fun sc => String.eqb (daily_path OUTPUT_DIR (t_append sc)) p) scs
         then Some (recs (fs s) p
                    ++ (if bool_decide (is_Some (files (fs s) !! p)) then [] else [fieldnames])
                    ++ rows_into p s scs)
         else files (fs s) !! p) /\
  (forall base_dir t t',
     valid_datetime t -> valid_datetime t' ->
     (daily_path base_dir t = daily_path base_dir t' <-> same_day t t')).
Proof.
  split; [|split].
  - intros base_dir row now s. cbv zeta. split; [reflexivity|].
    destruct (append_daily_csv_ok base_dir row now s) as (tr & Htr & Hd & Hf & _).
    exists tr. split; [exact Htr|]. split; [exact Hd | exact Hf].
  - intros scs s Hscans Hall.
    destruct (loop_recorded scs s Hscans Hall) as (Hd & _ & Hf).
    split; [exact Hd | exact Hf].
  - intros base_dir t t' Hv Hv'. split.
    + apply daily_path_inj; assumption.
    + apply daily_path_same_day.
Qed.

Lemma daily_files_witness :
  let s' := loop (map Some three_scans) sample_session in
  files (fs s') !! "/home/ddb/Documents/daily_list/08_2025/08_28_2025.csv"
  = Some [fieldnames; ["100"; "Amy"; "Lee"; "09:05"; "08:28:2025"];
          ["103"; "Carl"; "Young"; "12:30"; "08:28:2025"]] /\
  files (fs s') !! "/home/ddb/Documents/daily_list/08_2025/08_29_2025.csv"
  = Some [fieldnames; ["100"; "Amy"; "Lee"; "08:00"; "08:29:2025"]] /\
  (daily_path OUTPUT_DIR morning = daily_path OUTPUT_DIR noon <-> same_day morning noon).
Proof.
  assert (Hall : forall sc, sc ∈ three_scans ->
            failure sc = None /\ recorded sc sample_session <> None).
  { intros sc Hsc. unfold three_scans in Hsc.
    repeat (apply elem_of_cons in Hsc as [->|Hsc]; [split; [reflexivity | discriminate]|]).
    inversion Hsc. }
  assert (Hscans : scans (db sample_session) <> None) by discriminate.
  split; [|split].
  - exact (proj2 (proj1 (proj2 daily_files) three_scans sample_session Hscans Hall)
             "/home/ddb/Documents/daily_list/08_2025/08_28_2025.csv").
  - exact (proj2 (proj1 (proj2 daily_files) three_scans sample_session Hscans Hall)
             "/home/ddb/Documents/daily_list/08_2025/08_29_2025.csv").
  - apply (proj2 (proj2 daily_files) OUTPUT_DIR morning noon);
      unfold valid_datetime; simpl; lia.
Defined.

(** ** One word, one scan *)

Lemma ws_pieces_one_word (w : string) :
  str_any is_space w = false -> ws_pieces w = (w, []).
Proof.
  induction w as [|c w IH]; simpl; [reflexivity|].
  intros H. apply orb_false_iff in H as [Hc Hw]. rewrite (IH Hw), Hc. reflexivity.
Qed.

(** X6: On a name of one word [to_title] does what it says: the word is kept
    when it is in upper case and longer than one character, and
    capitalised otherwise. *)
Lemma to_title_one_word (s : string) :
  str_any is_space (_norm s) = false ->
  to_title s = if isupper (_norm s) && (1 <? String.length (_norm s))
               then _norm s else capitalize (_norm s).
Proof.
  intros H. unfold to_title, re_split_ws. rewrite (ws_pieces_one_word _ H).
  destruct (_norm s) as [|c w]; reflexivity.
Qed.

(** X20: a recorded scan whose two readings of the clock fall on the same date:
    one row is committed, the same values go to one record of the daily
    file, and that file is the one of the date of the row. *)
Lemma recorded_scan_same_day (sc : scan) (s : session) (r : scan_row)
    (rows : list scan_row) :
  failure sc = None -> recorded sc s = Some r ->
  scans (db s) = Some rows -> txn s = [] ->
  let s' := cycle sc s in
  sc_time_hhmm r = strftime_HM (t_insert sc) /\
  sc_date_mmddyyyy r = strftime_mdY (t_insert sc) /\
  scans (db s') = Some (rows ++ [r]) /\
  files (fs s') !! csv_path sc
  = Some (recs (fs s) (csv_path sc) ++ header_if_new (fs s) (csv_path sc) ++ [cells r]) /\
  (same_day (t_insert sc) (t_append sc) ->
   csv_path sc = daily_path OUTPUT_DIR (t_insert sc)).
Proof.
  intros Hf Hrec Hrows Htxn. cbv zeta.
  rewrite (cycle_success sc s r Hf Hrec) by (rewrite Hrows; discriminate).
  assert (Hr : sc_time_hhmm r = strftime_HM (t_insert sc) /\
               sc_date_mmddyyyy r = strftime_mdY (t_insert sc)).
  { revert Hrec. unfold recorded.
    destruct (normalize_scan _); [|discriminate].
    destruct (N.ltb _ _); [discriminate|].
    destruct (lookup _ _) as [[first last]|]; [|discriminate].
    intros [= <-]. split; reflexivity. }
  destruct Hr as [Ht Hd]. repeat split; try assumption.
  - rewrite remembered_scans, Hrows, Htxn. reflexivity.
  - change (files (fs (remembered sc s r))) with (files (fs (written sc s r))).
    rewrite files_written. apply lookup_insert_eq.
  - intros Hsame. symmetry. apply daily_path_same_day, Hsame.
Qed.

(** * Further properties *)

(** ** Whitespace normalisation *)

Lemma lstrip_head (s : string) :
  lstrip s = "" \/ exists c t, lstrip s = String c t /\ is_space c = false.
Proof.
  induction s as [|c s IH]; simpl; [auto|].
  destruct (is_space c) eqn:Hc; [exact IH|]. right. eauto.
Qed.

Lemma rstrip_trimmed (s : string) (b : bool) :
  rstrip s <> "" -> trimmed b (rstrip s) = true.
Proof.
  revert b; induction s as [|c s IH]; intros b; simpl; [congruence|].
  destruct (is_space c) eqn:Hc; simpl.
  - destruct (rstrip s) as [|d r] eqn:Hr; simpl; [congruence|].
    intros _. rewrite Hc. apply (IH true). discriminate.
  - intros _. rewrite Hc.
    destruct (rstrip s) as [|d r] eqn:Hr; [reflexivity|]. apply (IH false). discriminate.
Qed.

Lemma sub_ws_well_spaced (b : bool) (s : string) :
  trimmed b s = true -> well_spaced b (sub_ws b s) = true.
Proof.
  revert b; induction s as [|c s IH]; intros b; simpl; [auto|].
  destruct (is_space c) eqn:Hc; intros H.
  - destruct b; [apply IH, H|]. simpl. apply IH, H.
  - simpl. rewrite Hc. apply IH, H.
Qed.

Lemma norm_well_spaced (s : string) :
  _norm s = "" \/ well_spaced true (_norm s) = true.
Proof.
  unfold _norm, strip.
  destruct (lstrip_head s) as [-> | (c & t & -> & Hc)]; [left; reflexivity|].
  right. simpl. rewrite Hc. simpl. rewrite Hc. simpl. rewrite Hc.
  apply sub_ws_well_spaced.
  destruct (rstrip t) as [|d r] eqn:Hr; [reflexivity|].
  rewrite <- Hr. apply rstrip_trimmed. rewrite Hr. discriminate.
Qed.

Lemma well_spaced_sub_ws (b : bool) (s : string) :
  well_spaced b s = true -> sub_ws b s = s.
Proof.
  revert b; induction s as [|c s IH]; intros b; simpl; [reflexivity|].
  destruct (is_space c) eqn:Hc; intros H.
  - apply andb_true_iff in H as [H Hs]. apply andb_true_iff in H as [Hb Hsp].
    apply negb_true_iff in Hb. subst b.
    destruct (Ascii.eqb_spec c " ") as [->|]; [|discriminate].
    rewrite (IH true Hs). reflexivity.
  - rewrite (IH false H). reflexivity.
Qed.

Lemma well_spaced_rstrip (b : bool) (s : string) :
  well_spaced b s = true -> rstrip s = s.
Proof.
  revert b; induction s as [|c s IH]; intros b; simpl; [reflexivity|].
  destruct (is_space c) eqn:Hc; intros H.
  - apply andb_true_iff in H as [_ Hs]. rewrite (IH true Hs).
    destruct s; [discriminate Hs | reflexivity].
  - rewrite (IH false H). reflexivity.
Qed.

Lemma well_spaced_norm (s : string) : well_spaced true s = true -> _norm s = s.
Proof.
  intros H. unfold _norm, strip.
  assert (Hl : lstrip s = s).
  { destruct s as [|c s]; [reflexivity|]. simpl in *.
    destruct (is_space c); [discriminate H | reflexivity]. }
  rewrite Hl, (well_spaced_rstrip true s H).
  destruct s as [|c s]; [discriminate H|]. simpl in *.
  destruct (is_space c); [discriminate H|].
  rewrite (well_spaced_sub_ws false s H). reflexivity.
Qed.

Lemma norm_twice (s : string) : _norm (_norm s) = _norm s.
Proof.
  destruct (norm_well_spaced s) as [-> | H]; [reflexivity|].
  apply well_spaced_norm, H.
Qed.

(** X1: normalising twice is normalising once, and a normalised string is
    empty or has single spaces between its other characters: no blank at
    either end, no two blanks in a row, no blank other than the space. *)
Theorem norm_idempotent (s : string) :
  _norm (_norm s) = _norm s /\
  (_norm s = "" \/ well_spaced true (_norm s) = true).
Proof.
  split; [apply norm_twice | apply norm_well_spaced].
Qed.

(** X2: the three name functions see their argument through [_norm] only:
    each gives the same result on a string and on its normalisation. *)
Theorem normalisers_ignore_spacing (s : string) :
  to_title (_norm s) = to_title s /\
  clean_first (_norm s) = clean_first s /\
  parse_fullname (_norm s) = parse_fullname s.
Proof.
  pose proof (norm_twice s) as H.
  unfold to_title, clean_first, parse_fullname. rewrite H. repeat split.
Qed.
(** ** Names *)

Lemma lstrip_blank (s : string) : str_all is_space s = true -> lstrip s = "".
Proof.
  induction s as [|c s IH]; simpl; [reflexivity|].
  intros H. apply andb_true_iff in H as [Hc Hs]. rewrite Hc. auto.
Qed.

(** X3: on an empty or blank string each of the name functions returns
    the empty name, so a row made of blank cells is not usable. *)
Theorem blank_names (s : string) :
  str_all is_space s = true ->
  _norm s = "" /\ to_title s = "" /\ clean_first s = "" /\
  parse_fullname s = ("", "") /\
  usable (clean_first s, to_title s) = false /\ usable (parse_fullname s) = false.
Proof.
  intros H.
  assert (Hn : _norm s = "") by (unfold _norm, strip; rewrite (lstrip_blank s H); reflexivity).
  unfold to_title, clean_first, parse_fullname, to_title. rewrite Hn. repeat split.
Qed.

Lemma blank_names_witness :
  parse_fullname "  	 " = ("", "") /\ clean_first "" = "".
Proof.
  split.
  - apply (proj1 (proj2 (proj2 (proj2 (blank_names "  	 " eq_refl))))).
  - apply (proj1 (proj2 (proj2 (blank_names "" eq_refl)))).
Defined.

Lemma split_comma1_spec (s : string) :
  has_comma s = true ->
  exists before after,
    split_comma1 s = [before; after] /\ s = before +:+ "," +:+ after /\
    has_comma before = false.
Proof.
  unfold has_comma. induction s as [|c s IH]; simpl; [discriminate|].
  destruct (Ascii.eqb_spec c ",") as [->|Hc]; simpl.
  - intros _. exists "", s. repeat split.
  - intros H. destruct (IH H) as (b & a & Hs & -> & Hb). rewrite Hs.
    exists (String c b), a. repeat split. simpl.
    destruct (Ascii.eqb_spec c ","); [contradiction | exact Hb].
Qed.

(** X4: when the normalised text has a comma, it is cut at the first one;
    the last name is [to_title] of what stands before it and the first
    name is [clean_first] of the first word after it, the rest being
    dropped; with no word after the comma the first name is empty. *)
Theorem parse_fullname_comma (raw : string) :
  has_comma (_norm raw) = true ->
  exists before after,
    _norm raw = before +:+ "," +:+ after /\ has_comma before = false /\
    parse_fullname raw
    = (match split (strip after) with
       | first :: _ => clean_first first
       | [] => ""
       end, to_title (strip before)).
Proof.
  intros H. destruct (split_comma1_spec _ H) as (b & a & Hs & Heq & Hb).
  exists b, a. split; [exact Heq|]. split; [exact Hb|].
  unfold parse_fullname. rewrite H, Hs.
  destruct (_norm raw) eqn:E; [discriminate H|]. simpl.
  destruct (split (strip a)); reflexivity.
Qed.

Lemma parse_fullname_comma_witness :
  exists before after,
    _norm " o'NEIL ,  mary  ann  K. " = before +:+ "," +:+ after /\
    has_comma before = false /\
    parse_fullname " o'NEIL ,  mary  ann  K. "
    = (match split (strip after) with
       | first :: _ => clean_first first
       | [] => ""
       end, to_title (strip before)).
Proof. apply (parse_fullname_comma " o'NEIL ,  mary  ann  K. "). reflexivity. Defined.

Lemma split_first_word (s : string) :
  well_spaced true s = true -> exists t rest, split s = t :: rest.
Proof.
  destruct s as [|c r]; [discriminate|]. unfold split. simpl.
  destruct (is_space c) eqn:Hc; [discriminate|]. intros _.
  destruct (ws_pieces r) as [w pieces]. simpl. eauto.
Qed.

(** X5: without a comma, a text that is not blank has a first word, which
    gives the first name, and its last word gives the last name, whatever
    stands between them; a single word is a first name without a last
    name. *)
Theorem parse_fullname_words (raw : string) :
  has_comma (_norm raw) = false -> _norm raw <> "" ->
  exists t rest,
    split (_norm raw) = t :: rest /\
    parse_fullname raw
    = (clean_first t, match rest with [] => "" | _ => to_title (List.last rest "") end).
Proof.
  intros H Hne.
  destruct (norm_well_spaced raw) as [E | Hw]; [contradiction|].
  destruct (split_first_word _ Hw) as (t & rest & Hs).
  exists t, rest. split; [exact Hs|].
  unfold parse_fullname. rewrite H, Hs.
  destruct (_norm raw) as [|c r]; [contradiction|]. simpl negb. cbv iota.
  destruct rest as [|u rest]; reflexivity.
Qed.

Lemma parse_fullname_words_witness :
  exists t rest,
    split (_norm "mary  ann   van DYKE") = t :: rest /\
    parse_fullname "mary  ann   van DYKE"
    = (clean_first t, match rest with [] => "" | _ => to_title (List.last rest "") end).
Proof.
  apply (parse_fullname_words "mary  ann   van DYKE"); [reflexivity | discriminate].
Defined.

Lemma to_title_one_word_witness :
  to_title " mcDONALD " = capitalize "mcDONALD" /\ to_title "USA" = "USA".
Proof.
  split.
  - apply (to_title_one_word " mcDONALD "). reflexivity.
  - apply (to_title_one_word "USA"). reflexivity.
Defined.
(** ** Reading an id *)

Lemma int_acc_uint (d : Decimal.uint) (acc : N) :
  int_acc acc (NilEmpty.string_of_uint d)
  = Some (DecimalPos.Unsigned.of_lu (Decimal.rev d)
          + acc * 10 ^ DecimalPos.Unsigned.usize d)%N.
Proof.
  revert acc; induction d; intros acc; simpl NilEmpty.string_of_uint;
    [simpl; f_equal; lia | ..];
    cbn [int_acc]; change (is_digit _) with true; cbv iota;
    rewrite IHd; f_equal;
    unfold Decimal.rev; cbn [Decimal.revapp];
    rewrite (DecimalPos.Unsigned.of_lu_revapp d (_ Decimal.Nil));
    cbn [DecimalPos.Unsigned.usize]; rewrite N.pow_succ_r';
    unfold Decimal.rev; cbn [DecimalPos.Unsigned.of_lu code N_of_ascii N_of_digits];
    lia.
Qed.

Lemma int_str_of_N (n : N) : int (str_of_N n) = Some n.
Proof.
  unfold str_of_N, NilZero.string_of_uint.
  rewrite <- (DecimalN.Unsigned.of_to n) at 2.
  destruct (N.to_uint n) as [| d | d | d | d | d | d | d | d | d | d] eqn:E;
    try match goal with
        | |- int (NilEmpty.string_of_uint ?u) = _ =>
            change (int (NilEmpty.string_of_uint u))
              with (int_acc 0 (NilEmpty.string_of_uint u));
            rewrite int_acc_uint; unfold N.of_uint;
            rewrite DecimalPos.Unsigned.of_uint_alt; f_equal; lia
        end.
  exfalso. destruct n; [discriminate E|].
  exact (DecimalPos.Unsigned.to_uint_nonnil _ E).
Qed.

Lemma str_filter_app (p : ascii -> bool) (a b : string) :
  str_filter p (a +:+ b) = str_filter p a +:+ str_filter p b.
Proof.
  induction a as [|c a IH]; [reflexivity|]. rewrite app_cons. simpl.
  destruct (p c); rewrite IH; reflexivity.
Qed.

Lemma str_filter_all (p : ascii -> bool) (s : string) :
  str_all p s = true -> str_filter p s = s.
Proof.
  induction s as [|c s IH]; simpl; [reflexivity|].
  intros H. apply andb_true_iff in H as [Hc Hs]. rewrite Hc, (IH Hs). reflexivity.
Qed.

Lemma app_empty_r (s : string) : s +:+ "" = s.
Proof. induction s as [|c s IH]; [reflexivity|]. rewrite app_cons, IH. reflexivity. Qed.

(** X7: an id printed in decimal and read back, among any characters that
    are not digits, is that id: for every id the database can hold,
    [normalize_scan] of a text around [str(id)] returns it. *)
Theorem normalize_scan_reads_id (n : N) (before after : string) :
  (n <= sqlite_max_int)%N ->
  str_any is_digit before = false -> str_any is_digit after = false ->
  normalize_scan (before +:+ str_of_N n +:+ after) = Some n.
Proof.
  intros _ Hb Ha. unfold normalize_scan.
  rewrite !str_filter_app, (str_filter_none _ _ Hb), (str_filter_none _ _ Ha).
  rewrite (str_filter_all _ _ (str_of_N_digits n)), app_empty_l, app_empty_r.
  rewrite int_str_of_N.
  destruct (str_of_N n) eqn:E; [|reflexivity].
  pose proof (int_str_of_N n) as H. rewrite E in H. discriminate H.
Qed.

Lemma normalize_scan_reads_id_witness :
  normalize_scan ("id: " +:+ str_of_N 104 +:+ " !") = Some 104%N.
Proof.
  apply (normalize_scan_reads_id 104 "id: " " !"); [vm_compute; discriminate | reflexivity..].
Defined.

Lemma int_acc_all_digits (s : string) (acc : N) :
  str_all is_digit s = true -> exists n, int_acc acc s = Some n.
Proof.
  revert acc; induction s as [|c s IH]; intros acc; simpl; [eauto|].
  intros H. apply andb_true_iff in H as [Hc Hs]. rewrite Hc. apply IH, Hs.
Qed.

Lemma str_filter_sound (p : ascii -> bool) (s : string) :
  str_all p (str_filter p s) = true.
Proof.
  induction s as [|c s IH]; simpl; [reflexivity|].
  destruct (p c) eqn:Hc; [simpl; rewrite Hc|]; exact IH.
Qed.

Lemma str_filter_empty (p : ascii -> bool) (s : string) :
  str_filter p s = "" -> str_any p s = false.
Proof.
  induction s as [|c s IH]; simpl; [reflexivity|].
  destruct (p c); [discriminate|]. exact IH.
Qed.

(** X8: a text is refused as a scan exactly when it has no digit; the
    characters that are not digits are ignored.  The digits are supposed
    within the length Python converts to an integer. *)
Theorem normalize_scan_refuses (s : string) :
  String.length (str_filter is_digit s) <= 4300 ->
  (normalize_scan s = None <-> str_any is_digit s = false) /\
  normalize_scan s = normalize_scan (str_filter is_digit s).
Proof.
  intros _. split.
  - unfold normalize_scan. split.
    + destruct (str_filter is_digit s) as [|c r] eqn:E.
      * intros _. apply str_filter_empty, E.
      * simpl negb. cbv iota.
        destruct (int_acc_all_digits (String c r) 0) as [n Hn].
        { rewrite <- E. apply str_filter_sound. }
        unfold int. rewrite Hn. discriminate.
    + intros H. rewrite (str_filter_none _ _ H). reflexivity.
  - unfold normalize_scan.
    rewrite (str_filter_all _ (str_filter is_digit s) (str_filter_sound _ _)). reflexivity.
Qed.

Lemma normalize_scan_refuses_witness :
  (normalize_scan "n/a" = None <-> str_any is_digit "n/a" = false) /\
  normalize_scan "1-0 4" = normalize_scan (str_filter is_digit "1-0 4").
Proof.
  split.
  - apply (proj1 (normalize_scan_refuses "n/a" ltac:(simpl; lia))).
  - apply (proj2 (normalize_scan_refuses "1-0 4" ltac:(simpl; lia))).
Defined.
(** ** Building and importing the roster *)

Lemma sorted_perm_unique {A} (leb : A -> A -> bool) (l1 l2 : list A) :
  (forall a b, tied leb a b = true -> a = b) ->
  StronglySorted (fun a b => leb a b = true) l1 ->
  StronglySorted (fun a b => leb a b = true) l2 ->
  Permutation l1 l2 -> l1 = l2.
Proof.
  intros Hanti. revert l2; induction l1 as [|a l1 IH]; intros l2 H1 H2 Hp.
  - apply Permutation_nil in Hp. subst. reflexivity.
  - destruct l2 as [|b l2]; [symmetry in Hp; apply Permutation_nil in Hp; discriminate|].
    apply StronglySorted_inv in H1 as [H1t H1h].
    apply StronglySorted_inv in H2 as [H2t H2h].
    assert (Hab : a = b).
    { assert (Ha : In a (b :: l2)) by (eapply Permutation_in; [exact Hp | left; reflexivity]).
      assert (Hb : In b (a :: l1))
        by (eapply Permutation_in; [symmetry; exact Hp | left; reflexivity]).
      destruct Ha as [Ha | Ha]; [auto|]. destruct Hb as [Hb | Hb]; [auto|].
      apply Hanti. unfold tied.
      rewrite List.Forall_forall in H1h, H2h.
      rewrite (H1h b Hb), (H2h a Ha). reflexivity. }
    subst b. f_equal. apply IH; try assumption.
    eapply Permutation_cons_inv, Hp.
Qed.

Lemma filter_perm {A} (f : A -> bool) (l1 l2 : list A) :
  Permutation l1 l2 -> Permutation (List.filter f l1) (List.filter f l2).
Proof.
  induction 1 as [|x l l' _ IH|x y l|l l' l'' _ IH1 _ IH2]; simpl.
  - constructor.
  - destruct (f x); [constructor|]; exact IH.
  - destruct (f x), (f y); try reflexivity. constructor.
  - etransitivity; eassumption.
Qed.

(** X9: the roster, ids included, depends on the rows and not on their
    order in the input: two tables with the same normalised rows, in any
    order, give the same roster. *)
Theorem finalize_order_independent (out out' : list (string * string)) :
  Permutation out out' -> finalize out = finalize out'.
Proof.
  intros Hp.
  assert (Hs : sort_values (List.filter usable out) = sort_values (List.filter usable out')).
  { destruct (mergesort_spec row_leb row_leb_total row_leb_trans (List.filter usable out))
      as (P1 & S1 & _).
    destruct (mergesort_spec row_leb row_leb_total row_leb_trans (List.filter usable out'))
      as (P2 & S2 & _).
    apply (sorted_perm_unique row_leb); [apply row_tied_eq | exact S1 | exact S2 |].
    unfold sort_values. rewrite P1, P2. apply filter_perm, Hp. }
  unfold finalize. rewrite Hs. reflexivity.
Qed.

Lemma finalize_order_independent_witness :
  finalize [("Bob", "Stone"); ("", ""); ("Amy", "Zed"); ("Amy", "Lee")]
  = finalize [("Amy", "Lee"); ("Amy", "Zed"); ("Bob", "Stone"); ("", "")].
Proof.
  apply finalize_order_independent.
  apply Permutation_cons_app with (l1 := [("Amy", "Lee"); ("Amy", "Zed")]) (l2 := [("", "")]).
  apply Permutation_cons_app with (l1 := [("Amy", "Lee"); ("Amy", "Zed")]) (l2 := []).
  simpl. apply perm_swap.
Defined.

Lemma col_index_None (c : string) (cols : list string) :
  col_index c cols = None <-> ~ In c cols.
Proof.
  induction cols as [|c' cols IH]; simpl; [tauto|].
  destruct (String.eqb_spec c' c) as [->|Hne].
  - split; [discriminate | intros H; exfalso; apply H; auto].
  - destruct (col_index c cols); simpl.
    + split; [discriminate|]. intros H. exfalso.
      destruct (in_dec string_dec c cols) as [Hin|Hnin]; [apply H; auto|].
      apply IH in Hnin. discriminate Hnin.
    + split; [|reflexivity]. intros _ [E | Hin]; [contradiction | exact (proj1 IH eq_refl Hin)].
Qed.

(** X10: a builder fails only for a missing column: [build_from_separate]
    raises when the first-name column is not in the header, else when the
    last-name column is not, naming the column, and [build_from_combined]
    when its column is not; with the columns there they return a roster,
    whatever the records hold. *)
Theorem builders_raise_on_missing_column (df : dataframe) (first_col last_col col : string) :
  (~ In first_col (columns df) ->
   build_from_separate df first_col last_col
   = Raise ("Column '" +:+ first_col +:+ "' not found in CSV.")) /\
  (In first_col (columns df) -> ~ In last_col (columns df) ->
   build_from_separate df first_col last_col
   = Raise ("Column '" +:+ last_col +:+ "' not found in CSV.")) /\
  (In first_col (columns df) -> In last_col (columns df) ->
   exists roster, build_from_separate df first_col last_col = Ok roster) /\
  (~ In col (columns df) ->
   build_from_combined df col
   = Raise ("Combined name column '" +:+ col +:+ "' not found in CSV.")) /\
  (In col (columns df) -> exists roster, build_from_combined df col = Ok roster).
Proof.
  assert (Hsome : forall c, In c (columns df) -> exists i, col_index c (columns df) = Some i).
  { intros c Hc. destruct (col_index c (columns df)) as [i|] eqn:E; [eauto|].
    apply col_index_None in E. contradiction. }
  unfold build_from_separate, build_from_combined. repeat split.
  - intros H. apply col_index_None in H. rewrite H. reflexivity.
  - intros H1 H2. destruct (Hsome _ H1) as [i ->]. apply col_index_None in H2.
    rewrite H2. reflexivity.
  - intros H1 H2. destruct (Hsome _ H1) as [i ->], (Hsome _ H2) as [j ->]. eauto.
  - intros H. apply col_index_None in H. rewrite H. reflexivity.
  - intros H. destruct (Hsome _ H) as [i ->]. eauto.
Qed.

Lemma builders_raise_on_missing_column_witness :
  build_from_separate smith_table FIRST_COL LAST_COL
  = Raise "Column 'First Name' not found in CSV." /\
  build_from_combined sample_table COMBINED_NAME_COL
  = Raise "Combined name column 'Student Name' not found in CSV." /\
  exists roster, build_from_separate sample_table FIRST_COL LAST_COL = Ok roster.
Proof.
  split; [|split].
  - apply (proj1 (builders_raise_on_missing_column smith_table FIRST_COL LAST_COL "")).
    simpl. intros [H | []]. discriminate H.
  - apply (proj1 (proj2 (proj2 (proj2
             (builders_raise_on_missing_column sample_table "" "" COMBINED_NAME_COL))))).
    simpl. intros [H | [H | []]]; discriminate H.
  - apply (proj1 (proj2 (proj2
             (builders_raise_on_missing_column sample_table FIRST_COL LAST_COL "")))).
    + simpl. auto.
    + simpl. auto.
Defined.

Lemma to_sqlite_replace_finalize (out : list (string * string)) (now : string)
    (d : database) :
  to_sqlite (finalize out) now Replace d
  = ({| names := Some {| nt_rows := map (stamp_row now) (finalize out); nt_unique := true |};
        scans := scans d |}, None).
Proof.
  unfold to_sqlite.
  assert (Hkeys : map nr_tracking_id (map (stamp_row now) (finalize out))
                  = map tracking_id (finalize out)) by (rewrite map_map; reflexivity).
  rewrite Hkeys, distinct_NoDup; [reflexivity|].
  rewrite finalize_ids. apply ids_from_100_NoDup.
Qed.


(** X12: after an import in replace mode nothing of an earlier roster is
    left: whatever the table held, an id below 100 or past the last id
    assigned is not found. *)
Theorem replace_forgets (out : list (string * string)) (now : string) (d : database)
    (tid : N) (s : session) :
  (tid < 100 \/ 100 + N.of_nat (length (finalize out)) <= tid)%N ->
  (tid <= sqlite_max_int)%N ->
  names (db s) = names (fst (to_sqlite (finalize out) now Replace d)) ->
  fetch_name_by_tracking_id None tid s = ([], Ok None).
Proof.
  intros Hout Hmax Hs. rewrite to_sqlite_replace_finalize in Hs. simpl in Hs.
  unfold fetch_name_by_tracking_id, bind, may_raise, ret, gets, raise. simpl.
  destruct (N.ltb_spec sqlite_max_int tid) as [?|_]; [lia|]. simpl. rewrite Hs. simpl.
  destruct (List.find _ _) as [r|] eqn:Hfind; [|reflexivity].
  exfalso. apply find_some in Hfind as [Hin Heq]. apply N.eqb_eq in Heq.
  apply in_map_iff in Hin as (e & <- & He).
  apply (in_map tracking_id) in He. rewrite finalize_ids in He.
  apply in_map_iff in He as (k & Hk & Hin). apply in_seq in Hin.
  simpl in Heq. lia.
Qed.

Lemma replace_forgets_witness :
  fetch_name_by_tracking_id None 106 sample_session = ([], Ok None).
Proof.
  apply (replace_forgets (separate_rows sample_table 0 1) "2025-08-28T12:00:00Z"
           (fst empty_stores) 106 sample_session).
  - right. vm_compute. discriminate.
  - vm_compute. discriminate.
  - reflexivity.
Defined.
(** ** The loop over many scans *)

Lemma firstn_app_firstn {A} (n : nat) (l k : list A) :
  firstn n (l ++ firstn n k) = firstn n (l ++ k).
Proof.
  rewrite !firstn_app, firstn_firstn. f_equal. f_equal. lia.
Qed.

Lemma events_names (s s1 : session) (scs : list scan) :
  names (db s1) = names (db s) -> events s1 scs = events s scs.
Proof.
  intros H. unfold events. apply flat_map_ext. intros sc.
  rewrite (recorded_names sc s s1 H). reflexivity.
Qed.

Lemma remembered_txn (sc : scan) (s : session) (r : scan_row) :
  txn (remembered sc s r) = [].
Proof. unfold remembered, announced, written, headed. destruct (existed sc s); reflexivity. Qed.

Lemma loop_all_recorded (scs : list scan) (s : session) (rows : list scan_row) :
  scans (db s) = Some rows -> txn s = [] -> length (history s) <= 3 ->
  (forall sc, sc ∈ scs -> failure sc = None /\ recorded sc s <> None) ->
  let s' := loop (map Some scs) s in
  history s' = firstn 3 (rev (events s scs) ++ history s) /\
  scans (db s') = Some (rows ++ events s scs) /\
  txn s' = [].
Proof.
  revert s rows; induction scs as [|sc scs IH]; intros s rows Hrows Htxn Hlen Hall;
    cbv zeta.
  - simpl. rewrite app_nil_r, firstn_all2 by exact Hlen. auto.
  - destruct (Hall sc) as [Hf Hrec]; [apply elem_of_cons; auto|].
    destruct (recorded sc s) as [r|] eqn:Er; [clear Hrec|contradiction].
    simpl loop. rewrite (cycle_success sc s r Hf Er) by (rewrite Hrows; discriminate).
    set (s1 := remembered sc s r).
    assert (Hn1 : names (db s1) = names (db s)) by apply remembered_names.
    destruct (IH s1 (rows ++ [r])) as (Hh & Hs & Ht).
    { unfold s1. rewrite remembered_scans, Hrows, Htxn. reflexivity. }
    { apply remembered_txn. }
    { unfold s1. simpl history. unfold appendleft. rewrite length_firstn. lia. }
    { intros sc' Hsc'. rewrite (recorded_names sc' s s1 Hn1).
      apply Hall, elem_of_cons. auto. }
    rewrite (events_names s s1 scs Hn1) in Hh, Hs.
    assert (Hev : events s (sc :: scs) = r :: events s scs).
    { unfold events. simpl. rewrite Er. reflexivity. }
    rewrite Hev. split; [|split; [|exact Ht]].
    + rewrite Hh. unfold s1. simpl history. unfold appendleft.
      rewrite firstn_app_firstn. simpl rev. rewrite <- List.app_assoc. reflexivity.
    + rewrite Hs, <- List.app_assoc. reflexivity.
Qed.
Lemma three_scans_recorded (sc : scan) :
  sc ∈ three_scans -> failure sc = None /\ recorded sc sample_session <> None.
Proof.
  intros Hsc. unfold three_scans in Hsc.
  repeat (apply elem_of_cons in Hsc as [->|Hsc]; [split; [reflexivity | discriminate]|]).
  inversion Hsc.
Qed.

(** X13: after any number of recorded scans the history holds the three
    latest events, the newest first (all of them while there are fewer
    than three). *)
Theorem history_last_three (scs : list scan) (s : session) :
  scans (db s) <> None -> txn s = [] -> length (history s) <= 3 ->
  (forall sc, sc ∈ scs -> failure sc = None /\ recorded sc s <> None) ->
  history (loop (map Some scs) s) = firstn 3 (rev (events s scs) ++ history s).
Proof.
  intros Hscans Htxn Hlen Hall.
  destruct (scans (db s)) as [rows|] eqn:Hrows; [|contradiction].
  apply (loop_all_recorded scs s rows Hrows Htxn Hlen Hall).
Qed.

Lemma history_last_three_witness :
  history (loop (map Some (three_scans ++ three_scans)) sample_session)
  = firstn 3 (rev (events sample_session (three_scans ++ three_scans))
              ++ history sample_session).
Proof.
  apply (history_last_three (three_scans ++ three_scans) sample_session).
  - discriminate.
  - reflexivity.
  - simpl. lia.
  - intros sc Hsc. apply elem_of_app in Hsc as [Hsc|Hsc]; apply three_scans_recorded, Hsc.
Defined.

(** X14: the [scans] table is appended to in the order of arrival: after
    a sequence of recorded scans it holds the rows it held, then one row
    per scan, in order, and the connection has nothing left to commit. *)
Theorem scans_in_arrival_order (scs : list scan) (s : session) (rows : list scan_row) :
  scans (db s) = Some rows -> txn s = [] -> length (history s) <= 3 ->
  (forall sc, sc ∈ scs -> failure sc = None /\ recorded sc s <> None) ->
  scans (db (loop (map Some scs) s)) = Some (rows ++ events s scs) /\
  txn (loop (map Some scs) s) = [].
Proof.
  intros Hrows Htxn Hlen Hall.
  apply (loop_all_recorded scs s rows Hrows Htxn Hlen Hall).
Qed.

Lemma scans_in_arrival_order_witness :
  scans (db (loop (map Some three_scans) sample_session))
  = Some ([] ++ events sample_session three_scans) /\
  txn (loop (map Some three_scans) sample_session) = [].
Proof.
  apply (scans_in_arrival_order three_scans sample_session []).
  - reflexivity.
  - reflexivity.
  - simpl. lia.
  - apply three_scans_recorded.
Defined.

(** ** What the loop leaves alone *)

Lemma trace_scans_table (sc : scan) (s s' : session) :
  scans (db s) <> None -> s' ∈ cycle_trace sc s -> scans (db s') <> None.
Proof.
  intros Hs Hin.
  destruct (trace_states sc s s' Hin) as (_ & [(H & _) | (r & _ & _ & (H & _))]);
    rewrite H; [exact Hs | discriminate].
Qed.

Lemma reachable_roster (s0 s : session) :
  scans (db s0) <> None -> reachable s0 s ->
  names (db s) = names (db s0) /\ scans (db s) <> None.
Proof.
  intros H0. induction 1 as [|sc s _ [IHn IHs]]; [auto|].
  pose proof (cycle_in_trace sc s) as Hin. split.
  - rewrite <- IHn. apply (trace_states sc s _ Hin).
  - apply (trace_scans_table sc s _ IHs Hin).
Qed.

(** X15: the loop never writes the roster: in every state of a session,
    between cycles or inside one and whatever has failed, the [names]
    table is the one the session started with, and the [scans] table is
    there. *)
Theorem roster_untouched (d : database) (f : filesystem) (s : session) :
  visited (start d f) s ->
  names (db s) = names d /\ scans (db s) <> None.
Proof.
  assert (H0 : scans (db (start d f)) <> None) by discriminate.
  intros [Hr | (sc & s1 & Hr & Hin)].
  - apply (reachable_roster _ _ H0 Hr).
  - destruct (reachable_roster _ _ H0 Hr) as [Hn Hs]. split.
    + change (names d) with (names (db (start d f))). rewrite <- Hn.
      apply (trace_states sc s1 s Hin).
    + apply (trace_scans_table sc s1 s Hs Hin).
Qed.

Lemma roster_untouched_witness :
  names (db (cycle failing_scan sample_session)) = names sample_db /\
  scans (db (cycle failing_scan sample_session)) <> None.
Proof.
  apply (roster_untouched sample_db (snd empty_stores)).
  left. apply (reach_cycle _ failing_scan), reach_start.
Defined.

(** X16: a failed cycle does not end the session: in any state reached
    between cycles, whatever was scanned and whatever failed before, a scan
    of an id of the roster during which nothing fails is recorded: its row
    is committed and it enters the history in front. *)
Theorem session_recovers (d : database) (f : filesystem) (s : session) (sc : scan)
    (r : scan_row) :
  reachable (start d f) s ->
  failure sc = None -> recorded sc (start d f) = Some r ->
  let s' := cycle sc s in
  scans (db s') = Some (default [] (scans (db s)) ++ txn s ++ [r]) /\
  history s' = firstn 3 (r :: history s) /\
  cells r ∈ recs (fs s') (csv_path sc).
Proof.
  intros Hr Hf Hrec. cbv zeta.
  assert (H0 : scans (db (start d f)) <> None) by discriminate.
  destruct (reachable_roster _ _ H0 Hr) as [Hn Hs].
  rewrite <- (recorded_names sc (start d f) s Hn) in Hrec.
  rewrite (cycle_success sc s r Hf Hrec Hs).
  split; [apply remembered_scans|]. split; [reflexivity | apply remembered_written].
Qed.

Lemma session_recovers_witness :
  let s := cycle failing_scan sample_session in
  let sc := {| typed := "105"; t_insert := noon; t_append := noon; failure := None |} in
  let r := {| sc_tracking_id := 105; sc_first_name := "Eve"; sc_last_name := "ADAMS";
              sc_time_hhmm := "12:30"; sc_date_mmddyyyy := "08:28:2025" |} in
  scans (db (cycle sc s)) = Some (default [] (scans (db s)) ++ txn s ++ [r]) /\
  history (cycle sc s) = firstn 3 (r :: history s) /\
  cells r ∈ recs (fs (cycle sc s)) (csv_path sc).
Proof.
  cbv zeta.
  apply (session_recovers sample_db (snd empty_stores)).
  - apply (reach_cycle _ failing_scan), reach_start.
  - reflexivity.
  - reflexivity.
Defined.

Lemma trace_files (sc : scan) (s s' : session) (p : string) :
  s' ∈ cycle_trace sc s ->
  files (fs s') !! p = files (fs s) !! p \/ p = daily_path OUTPUT_DIR (t_append sc).
Proof.
  intros Hin.
  destruct (trace_states sc s s' Hin) as (_ & [(_ & -> & _) | (r & _ & _ & Hafter)]);
    [auto|].
  destruct Hafter as (_ & _ & [-> | (k & _ & ->)] & _); [auto|].
  destruct (decide (csv_path sc = p)) as [<-|Hne]; [right; reflexivity|].
  left. apply lookup_insert_ne, Hne.
Qed.

(** X17: the loop writes to daily files only: in every state of an
    execution, a path whose file is not as it was at the start is the
    path [<OUTPUT_DIR>/<MM_YYYY>/<MM_DD_YYYY>.csv] of a reading of the
    clock. *)
Theorem only_daily_files (s0 s : session) (p : string) :
  visited s0 s ->
  files (fs s) !! p = files (fs s0) !! p \/
  exists now, p = daily_path OUTPUT_DIR now.
Proof.
  assert (Hreach : forall s1, reachable s0 s1 ->
            files (fs s1) !! p = files (fs s0) !! p \/
            exists now, p = daily_path OUTPUT_DIR now).
  { induction 1 as [|sc s1 _ IH]; [auto|].
    destruct (trace_files sc s1 _ p (cycle_in_trace sc s1)) as [E | E]; [|eauto].
    rewrite E. exact IH. }
  intros [Hr | (sc & s1 & Hr & Hin)]; [apply Hreach, Hr|].
  destruct (trace_files sc s1 s p Hin) as [E | E]; [|eauto].
  rewrite E. apply Hreach, Hr.
Qed.

Lemma only_daily_files_witness :
  let s := loop (map Some three_scans) sample_session in
  let p := path_join student_input.OUTPUT_DIR OUTPUT_CSV_NAME in
  files (fs s) !! p = files (fs sample_session) !! p \/
  exists now, p = daily_path OUTPUT_DIR now.
Proof.
  cbv zeta. apply only_daily_files. left.
  apply (loop_reachable (map Some three_scans)), reach_start.
Defined.

Lemma recorded_scan_same_day_witness :
  let sc := {| typed := "103"; t_insert := noon; t_append := noon; failure := None |} in
  let s' := cycle sc sample_session in
  scans (db s')
  = Some ([] ++ [{| sc_tracking_id := 103; sc_first_name := "Carl";
                    sc_last_name := "Young"; sc_time_hhmm := "12:30";
                    sc_date_mmddyyyy := "08:28:2025" |}]) /\
  csv_path sc = daily_path OUTPUT_DIR (t_insert sc).
Proof.
  cbv zeta.
  pose proof (recorded_scan_same_day
                {| typed := "103"; t_insert := noon; t_append := noon; failure := None |}
                sample_session
                {| sc_tracking_id := 103; sc_first_name := "Carl"; sc_last_name := "Young";
                   sc_time_hhmm := "12:30"; sc_date_mmddyyyy := "08:28:2025" |}
                [] eq_refl eq_refl eq_refl eq_refl) as (_ & _ & Hs & _ & Hp).
  split; [exact Hs|]. apply Hp. repeat split.
Defined.
